(** * modtransplant: merging one go.mod into another

    A shallow embedding of [main.go] (mergeRequires, mergeReplacements,
    mergeExcludes, canCompare and the pipeline of [run]) together with the
    parts of [golang.org/x/mod/module], [golang.org/x/mod/modfile] and
    [github.com/Masterminds/semver] that [main.go] calls, followed by the
    properties of the merge.

    The destination [*modfile.File] is mutated in place by the Go code; here
    every pass takes the destination and returns the destination after the
    pass together with the error it returned, if any.  Lines written to
    [os.Stderr] are diagnostics only and are not modelled.

    The model is of the parsed fields of [*modfile.File] that main.go reads
    and writes: [Module.Mod.Path], [Require], [Replace] and [Exclude].  The
    syntax tree [File.Syntax], from which [File.Format] prints, is not part
    of it.  The assignments of lines 114, 121 and 127 write the parsed
    fields only, so what is stated below about the version or the indirect
    flag of a require after the merge is stated about the [Require] entries
    in memory, not about the printed text.  Flag parsing, reading, parsing
    and printing in [run] (lines 24-58 and 71-77) and [main] are not
    modelled, and both manifests are taken to have a module directive.

    Names follow the Go code.  Where a Go name is taken in Rocq or would
    clash with another field, it is adapted: [module.Version] is
    [ModVersion] and its method [String] is [ModString]; [modfile.Require],
    [modfile.Replace] and [modfile.Exclude] are [RequireStmt], [ReplaceStmt]
    and [ExcludeStmt]; the fields [File.Require], [File.Replace] and
    [File.Exclude] are [Requires], [Replaces] and [Excludes]; the field
    [Mod] of an exclusion is [ExMod]. *)

From Stdlib Require Import String Ascii List Bool Arith NArith Lia.
Import ListNotations.
Open Scope string_scope.
Open Scope list_scope.

(* ------------------------------------------------------------------ *)
(** ** golang.org/x/mod/module *)

(** [module.Version]: a module path and a version string. *)
Record ModVersion : Type := mkModVersion {
  Path : string;
  Version : string
}.

(** [func (m Version) String() string]: the path alone when the version is
    empty, [Path@Version] otherwise. *)
Definition ModString (m : ModVersion) : string :=
  if (Version m =? "")%string then Path m
  else Path m ++ "@" ++ Version m.

(** Field-wise comparison of two coordinates. *)
Definition ModVersion_eqb (a b : ModVersion) : bool :=
  (Path a =? Path b)%string && (Version a =? Version b)%string.

(* ------------------------------------------------------------------ *)
(** ** github.com/Masterminds/semver, as the interface main.go uses *)

(** [semver.NewVersion] (parsing may fail), [Version.Prerelease] and
    [Version.LessThan].  The merge is stated and verified for any
    implementation of this interface. *)
Class Semver : Type := {
  SemVersion : Type;
  NewVersion : string -> option SemVersion;
  Prerelease : SemVersion -> string;
  LessThan : SemVersion -> SemVersion -> bool
}.

(* ------------------------------------------------------------------ *)
(** ** golang.org/x/mod/modfile: the in-memory [File] *)

(** [modfile.Require]. *)
Record RequireStmt : Type := mkRequire {
  Mod : ModVersion;
  Indirect : bool
}.

(** [modfile.Replace]. *)
Record ReplaceStmt : Type := mkReplace {
  Old : ModVersion;
  New : ModVersion
}.

(** [modfile.Exclude]. *)
Record ExcludeStmt : Type := mkExclude {
  ExMod : ModVersion
}.

(** [modfile.File], without its syntax tree.  [ModulePath] stands for
    [f.Module.Mod.Path]; main.go dereferences [src.Module] unconditionally,
    so a file without a module directive is outside the model. *)
Record File : Type := mkFile {
  ModulePath : string;
  Requires : list RequireStmt;
  Excludes : list ExcludeStmt;
  Replaces : list ReplaceStmt
}.

Definition setRequires (f : File) (rs : list RequireStmt) : File :=
  {| ModulePath := ModulePath f; Requires := rs;
     Excludes := Excludes f; Replaces := Replaces f |}.

Definition setReplaces (f : File) (rs : list ReplaceStmt) : File :=
  {| ModulePath := ModulePath f; Requires := Requires f;
     Excludes := Excludes f; Replaces := rs |}.

Definition setExcludes (f : File) (xs : list ExcludeStmt) : File :=
  {| ModulePath := ModulePath f; Requires := Requires f;
     Excludes := xs; Replaces := Replaces f |}.

Definition zeroVersion : ModVersion := {| Path := ""; Version := "" |}.

(** The Go zero values [Require{}] and [Replace{}]. *)
Definition zeroRequire : RequireStmt :=
  {| Mod := zeroVersion; Indirect := false |}.
Definition zeroReplace : ReplaceStmt :=
  {| Old := zeroVersion; New := zeroVersion |}.

(** [File.DropRequire]: every require of [path] is overwritten with the
    zero value; the slice keeps its length until [Cleanup].  The library
    function always returns a nil error. *)
Definition DropRequire (path : string) (rs : list RequireStmt)
  : list RequireStmt :=
  map (fun r => if (Path (Mod r) =? path)%string then zeroRequire else r) rs.

(** [File.AddNewRequire]: appends a require line "regardless of any
    existing require lines for path". *)
Definition AddNewRequire (path vers : string) (indirect : bool)
    (rs : list RequireStmt) : list RequireStmt :=
  rs ++ [ {| Mod := {| Path := path; Version := vers |};
             Indirect := indirect |} ].

(** [File.DropReplace]: every replace of exactly [oldPath oldVers] is
    overwritten with the zero value. *)
Definition DropReplace (oldPath oldVers : string) (rs : list ReplaceStmt)
  : list ReplaceStmt :=
  map (fun r =>
         if (Path (Old r) =? oldPath)%string
            && (Version (Old r) =? oldVers)%string
         then zeroReplace else r) rs.

(** The loop of [File.AddReplace]: the first replace of [oldPath]
    (any version when [oldVers] is empty) gets the new target, later ones
    are zeroed; [need] tells whether a line must still be added. *)
Fixpoint addReplaceLoop (oldPath oldVers : string) (new : ModVersion)
    (need : bool) (rs : list ReplaceStmt) : list ReplaceStmt * bool :=
  match rs with
  | [] => ([], need)
  | r :: rest =>
      if (Path (Old r) =? oldPath)%string
         && ((oldVers =? "")%string || (Version (Old r) =? oldVers)%string)
      then
        if need then
          let (rest', need') := addReplaceLoop oldPath oldVers new false rest in
          ({| Old := Old r; New := new |} :: rest', need')
        else
          let (rest', need') := addReplaceLoop oldPath oldVers new need rest in
          (zeroReplace :: rest', need')
      else
        let (rest', need') := addReplaceLoop oldPath oldVers new need rest in
        (r :: rest', need')
  end.

(** [File.AddReplace]. *)
Definition AddReplace (oldPath oldVers newPath newVers : string)
    (rs : list ReplaceStmt) : list ReplaceStmt :=
  let old := {| Path := oldPath; Version := oldVers |} in
  let new := {| Path := newPath; Version := newVers |} in
  let (rs', need) := addReplaceLoop oldPath oldVers new true rs in
  if need then rs' ++ [ {| Old := old; New := new |} ] else rs'.

(** [File.AddExclude]: nothing happens when the coordinate is already
    excluded, otherwise one line is appended. *)
Definition AddExclude (path vers : string) (xs : list ExcludeStmt)
  : list ExcludeStmt :=
  if existsb (fun x => (Path (ExMod x) =? path)%string
                       && (Version (ExMod x) =? vers)%string) xs
  then xs
  else xs ++ [ {| ExMod := {| Path := path; Version := vers |} |} ].

(** [File.Cleanup]: the statements zeroed by the Drop functions, those
    with an empty path, leave the slices. *)
Definition Cleanup (f : File) : File :=
  {| ModulePath := ModulePath f;
     Requires := filter (fun r => negb (Path (Mod r) =? "")%string) (Requires f);
     Excludes := filter (fun x => negb (Path (ExMod x) =? "")%string) (Excludes f);
     Replaces := filter (fun r => negb (Path (Old r) =? "")%string) (Replaces f) |}.

(* ------------------------------------------------------------------ *)
(** ** Errors and loop outcomes *)

Inductive error : Type :=
| ErrInvalidSemVer (v : string)
    (** the error of [semver.NewVersion] on [v] *)
| ErrIrreconcilable (dest src : ModVersion)
    (** "cannot reconcile difference between versions: dest=%s src=%s" *)
| ErrReplaceMismatch.
    (** "(replace) source and destination old path/version match, but new
        path/version do not" *)

(** A computation that may return an error. *)
Definition result (A : Type) : Type := (error + A)%type.

Definition ok {A : Type} (a : A) : result A := inr a.
Definition fail {A : Type} (e : error) : result A := inl e.

Definition bind {A B : Type} (m : result A) (k : A -> result B) : result B :=
  match m with
  | inl e => inl e
  | inr a => k a
  end.

Notation "x <- m ;; k" := (bind m (fun x => k))
  (at level 61, m at next level, right associativity).

(** How an inner loop over the destination ends: by [break] with
    [found = true], by running off the slice with [found = false], or by
    [return err]. *)
Inductive outcome : Type :=
| Found
| NotFound
| Abort (e : error).

(* ------------------------------------------------------------------ *)
(** ** main.go *)

Section Merge.
Context {SV : Semver}.

(** [canCompare]. *)
Definition canCompare (a b : SemVersion) : bool :=
  ((Prerelease a =? "")%string && (Prerelease b =? "")%string)
  || (negb (Prerelease a =? "")%string && negb (Prerelease b =? "")%string).

Definition setVersion (r : RequireStmt) (v : string) : RequireStmt :=
  {| Mod := {| Path := Path (Mod r); Version := v |}; Indirect := Indirect r |}.

Definition setIndirect (r : RequireStmt) (b : bool) : RequireStmt :=
  {| Mod := Mod r; Indirect := b |}.

(** Lines 103-124: the version block of the branch
    [srcR.Mod.Path == destR.Mod.Path]. *)
Definition reconcileVersion (forceOverwrite : bool)
    (srcR destR : RequireStmt) : result RequireStmt :=
  if negb (Version (Mod srcR) =? Version (Mod destR))%string then
    destVersion <- match NewVersion (Version (Mod destR)) with
                   | Some v => ok v
                   | None => fail (ErrInvalidSemVer (Version (Mod destR)))
                   end ;;
    srcVersion <- match NewVersion (Version (Mod srcR)) with
                  | Some v => ok v
                  | None => fail (ErrInvalidSemVer (Version (Mod srcR)))
                  end ;;
    if forceOverwrite then ok (setVersion destR (Version (Mod srcR)))
    else if negb (canCompare destVersion srcVersion) then
      fail (ErrIrreconcilable (Mod destR) (Mod srcR))
    else if LessThan srcVersion destVersion then
      ok (setVersion destR (Version (Mod srcR)))
    else ok destR
  else ok destR.

(** Lines 125-128: [if destR.Indirect != !srcR.Indirect
    { destR.Indirect = srcR.Indirect }]. *)
Definition reconcileIndirect (srcR destR : RequireStmt) : RequireStmt :=
  if negb (Bool.eqb (Indirect destR) (negb (Indirect srcR)))
  then setIndirect destR (Indirect srcR)
  else destR.

(** Lines 102-129: what happens to a destination require of the same path. *)
Definition reconcile (forceOverwrite : bool) (srcR destR : RequireStmt)
  : result RequireStmt :=
  destR1 <- reconcileVersion forceOverwrite srcR destR ;;
  ok (reconcileIndirect srcR destR1).

(** Lines 96-130: the inner loop of mergeRequires for one [srcR].  It
    returns the destination requires as the loop leaves them and how it
    ended. *)
Fixpoint scanRequires (forceOverwrite : bool) (srcR : RequireStmt)
    (ds : list RequireStmt) : list RequireStmt * outcome :=
  match ds with
  | [] => ([], NotFound)
  | destR :: rest =>
      if (ModString (Mod srcR) =? ModString (Mod destR))%string then
        (destR :: rest, Found)
      else if (Path (Mod srcR) =? Path (Mod destR))%string then
        match reconcile forceOverwrite srcR destR with
        | inl e => (destR :: rest, Abort e)
        | inr destR' =>
            let (rest', o) := scanRequires forceOverwrite srcR rest in
            (destR' :: rest', o)
        end
      else
        let (rest', o) := scanRequires forceOverwrite srcR rest in
        (destR :: rest', o)
  end.

(** Lines 94-136: the loop over [src.Require]. *)
Fixpoint requireLoop (forceOverwrite : bool) (srcs : list RequireStmt)
    (ds : list RequireStmt) : list RequireStmt * option error :=
  match srcs with
  | [] => (ds, None)
  | srcR :: srcs' =>
      match scanRequires forceOverwrite srcR ds with
      | (ds', Abort e) => (ds', Some e)
      | (ds', Found) => requireLoop forceOverwrite srcs' ds'
      | (ds', NotFound) =>
          requireLoop forceOverwrite srcs'
            (AddNewRequire (Path (Mod srcR)) (Version (Mod srcR))
               (Indirect srcR) ds')
      end
  end.

(** [mergeRequires]. *)
Definition mergeRequires (dest src : File) (forceOverwrite : bool)
  : File * option error :=
  let ds := DropRequire (ModulePath src) (Requires dest) in
  let (ds', err) := requireLoop forceOverwrite (Requires src) ds in
  (setRequires dest ds', err).

(** Lines 151-160: collect the old coordinates that replace the source
    module, then drop each of them. *)
Definition dropVersions (srcPath : string) (rs : list ReplaceStmt)
  : list ModVersion :=
  map Old (filter (fun r => (Path (Old r) =? srcPath)%string) rs).

Definition dropSelfReplaces (srcPath : string) (rs : list ReplaceStmt)
  : list ReplaceStmt :=
  fold_left (fun acc v => DropReplace (Path v) (Version v) acc)
            (dropVersions srcPath rs) rs.

(** Lines 164-175: the inner loop of mergeReplacements for one [srcR]; it
    does not modify the destination. *)
Fixpoint scanReplaces (srcR : ReplaceStmt) (ds : list ReplaceStmt) : outcome :=
  match ds with
  | [] => NotFound
  | destR :: rest =>
      if (ModString (Old srcR) =? ModString (Old destR))%string then Found
      else if (Path (Old srcR) =? Path (Old destR))%string
              && (Version (Old srcR) =? Version (Old destR))%string
              && (negb (Path (New srcR) =? Path (New destR))%string
                  || negb (Version (New srcR) =? Version (New destR))%string)
      then Abort ErrReplaceMismatch
      else scanReplaces srcR rest
  end.

(** Lines 162-181: the loop over [src.Replace]. *)
Fixpoint replaceLoop (srcs : list ReplaceStmt) (ds : list ReplaceStmt)
  : list ReplaceStmt * option error :=
  match srcs with
  | [] => (ds, None)
  | srcR :: srcs' =>
      match scanReplaces srcR ds with
      | Abort e => (ds, Some e)
      | Found => replaceLoop srcs' ds
      | NotFound =>
          replaceLoop srcs'
            (AddReplace (Path (Old srcR)) (Version (Old srcR))
               (Path (New srcR)) (Version (New srcR)) ds)
      end
  end.

(** [mergeReplacements]. *)
Definition mergeReplacements (dest src : File) : File * option error :=
  let ds := dropSelfReplaces (ModulePath src) (Replaces dest) in
  let (ds', err) := replaceLoop (Replaces src) ds in
  (setReplaces dest ds', err).

(** Lines 191-197: the inner loop of mergeExcludes. *)
Fixpoint scanExcludes (srcE : ExcludeStmt) (ds : list ExcludeStmt) : bool :=
  match ds with
  | [] => false
  | destE :: rest =>
      if (ModString (ExMod srcE) =? ModString (ExMod destE))%string then true
      else scanExcludes srcE rest
  end.

(** Lines 189-203: the loop over [src.Exclude]. *)
Fixpoint excludeLoop (srcs : list ExcludeStmt) (ds : list ExcludeStmt)
  : list ExcludeStmt :=
  match srcs with
  | [] => ds
  | srcE :: srcs' =>
      if scanExcludes srcE ds then excludeLoop srcs' ds
      else excludeLoop srcs'
             (AddExclude (Path (ExMod srcE)) (Version (ExMod srcE)) ds)
  end.

(** [mergeExcludes]; its only return statement is [return nil]. *)
Definition mergeExcludes (dest src : File) : File * option error :=
  (setExcludes dest (excludeLoop (Excludes src) (Excludes dest)), None).

(** [indirectStr]. *)
Definition indirectStr (indirect : bool) : string :=
  if indirect then "indirect" else "direct".

(** [run], from the two parsed files on: the three passes in order, then
    [dest.Cleanup()]; the file returned is the one [dest.Format()] prints.
    Flag parsing, file reading and [modfile.Parse] come before and are not
    part of the model. *)
Definition run (dest src : File) (forceOverwrite : bool) : result File :=
  match mergeRequires dest src forceOverwrite with
  | (_, Some e) => fail e
  | (dest1, None) =>
      match mergeReplacements dest1 src with
      | (_, Some e) => fail e
      | (dest2, None) =>
          match mergeExcludes dest2 src with
          | (_, Some e) => fail e
          | (dest3, None) => ok (Cleanup dest3)
          end
      end
  end.

End Merge.

(* ------------------------------------------------------------------ *)
(** ** A small implementation of the semver interface

    Used to run the merge on concrete manifests only; every general
    statement below is over any [Semver].  It reads
    [v?MAJOR(.MINOR)?(.PATCH)?(-PRE)?(+META)?] and orders versions by
    (major, minor, patch) with a pre-release below its release; two
    pre-releases of the same triple are ordered by comparing their tags as
    strings.  It is not the library: numbers are not bounded by 64 bits, a
    tag with an empty dot-separated identifier is read, and the identifiers
    of two tags are not compared one by one.  The versions of the examples
    are releases ([v1.2.0]) and one pre-release per triple, on which none
    of this shows. *)
Module SimpleSemver.

Record t : Type := mk {
  major : N;
  minor : N;
  patch : N;
  pre : string;
  metadata : string
}.

Definition is_digit (c : ascii) : bool :=
  ((48 <=? nat_of_ascii c) && (nat_of_ascii c <=? 57))%nat.

Definition is_tag_char (c : ascii) : bool :=
  let n := nat_of_ascii c in
  is_digit c
  || ((65 <=? n) && (n <=? 90))%nat
  || ((97 <=? n) && (n <=? 122))%nat
  || (n =? 45)%nat || (n =? 46)%nat.

Fixpoint span (p : ascii -> bool) (s : string) : string * string :=
  match s with
  | EmptyString => ("", "")
  | String c s' =>
      if p c then let (a, b) := span p s' in (String c a, b)
      else ("", s)
  end.

Fixpoint number (s : string) (acc : N) : N :=
  match s with
  | EmptyString => acc
  | String c s' => number s' (10 * acc + N.of_nat (nat_of_ascii c - 48))%N
  end.

Definition read_number (s : string) : option (N * string) :=
  let (d, rest) := span is_digit s in
  if (d =? "")%string then None else Some (number d 0%N, rest).

Definition read_dot_number (s : string) : N * string :=
  match s with
  | String "." s' =>
      match read_number s' with
      | Some r => r
      | None => (0%N, s)
      end
  | _ => (0%N, s)
  end.

Definition read_tag (mark : ascii) (s : string) : option (string * string) :=
  match s with
  | String c s' =>
      if Ascii.eqb c mark then
        let (tag, rest) := span is_tag_char s' in
        if (tag =? "")%string then None else Some (tag, rest)
      else Some ("", s)
  | EmptyString => Some ("", s)
  end.

Definition parse (s : string) : option t :=
  let s0 := match s with String "v" s' => s' | _ => s end in
  match read_number s0 with
  | None => None
  | Some (ma, s1) =>
      let (mi, s2) := read_dot_number s1 in
      let (pa, s3) := read_dot_number s2 in
      match read_tag "-" s3 with
      | None => None
      | Some (p, s4) =>
          match read_tag "+" s4 with
          | Some (m, EmptyString) =>
              Some {| major := ma; minor := mi; patch := pa;
                      pre := p; metadata := m |}
          | _ => None
          end
      end
  end.

Definition compare (a b : t) : comparison :=
  match (major a ?= major b)%N with
  | Eq =>
      match (minor a ?= minor b)%N with
      | Eq =>
          match (patch a ?= patch b)%N with
          | Eq =>
              match (pre a =? "")%string, (pre b =? "")%string with
              | true, true => Eq
              | true, false => Gt
              | false, true => Lt
              | false, false => String.compare (pre a) (pre b)
              end
          | c => c
          end
      | c => c
      end
  | c => c
  end.

Definition lessThan (a b : t) : bool :=
  match compare a b with
  | Lt => true
  | _ => false
  end.

End SimpleSemver.

#[export] Instance simpleSemver : Semver := {|
  SemVersion := SimpleSemver.t;
  NewVersion := SimpleSemver.parse;
  Prerelease := SimpleSemver.pre;
  LessThan := SimpleSemver.lessThan
|}.

(** Manifests used in the examples. *)
Definition require (path vers : string) (indirect : bool) : RequireStmt :=
  {| Mod := {| Path := path; Version := vers |}; Indirect := indirect |}.

Definition replace (oldPath oldVers newPath newVers : string) : ReplaceStmt :=
  {| Old := {| Path := oldPath; Version := oldVers |};
     New := {| Path := newPath; Version := newVers |} |}.

Definition exclude (path vers : string) : ExcludeStmt :=
  {| ExMod := {| Path := path; Version := vers |} |}.


(* ------------------------------------------------------------------ *)
(** ** Well-formed manifests

    A Go module path is not empty and never contains the character '@',
    which [ModString] uses as separator. *)

Fixpoint contains_at (s : string) : bool :=
  match s with
  | EmptyString => false
  | String c s' => Ascii.eqb c "@" || contains_at s'
  end.

Definition valid_path (p : string) : bool :=
  negb (p =? "")%string && negb (contains_at p).

Definition requirePath (r : RequireStmt) : string := Path (Mod r).
Definition replacePath (r : ReplaceStmt) : string := Path (Old r).
Definition excludePath (x : ExcludeStmt) : string := Path (ExMod x).

(** Every path a manifest mentions on the left of a statement. *)
Definition filePaths (f : File) : list string :=
  map requirePath (Requires f) ++ map replacePath (Replaces f)
  ++ map excludePath (Excludes f).

Definition well_formed (f : File) : Prop :=
  Forall (fun p => valid_path p = true) (filePaths f).

(** The manifest neither requires nor replaces its own module. *)
Definition no_self_reference (f : File) : Prop :=
  ~ In (ModulePath f) (map requirePath (Requires f))
  /\ ~ In (ModulePath f) (map replacePath (Replaces f)).


(* ------------------------------------------------------------------ *)
(** ** Notions used in the statements and proofs *)

(** What one pass of the loop body can do to a destination require. *)
Definition touched (srcR d d' : RequireStmt) : Prop :=
  d' = d
  \/ (Path (Mod d) = Path (Mod srcR)
      /\ d' = setVersion d (Version (Mod srcR))).

(** [d] is neither the coordinate nor the path of [srcR]: the inner loop
    passes over it. *)
Definition unrelated (srcR d : RequireStmt) : bool :=
  negb (ModString (Mod srcR) =? ModString (Mod d))%string
  && negb (Path (Mod srcR) =? Path (Mod d))%string.


Definition at_free (l : list RequireStmt) : Prop :=
  Forall (fun d => contains_at (Path (Mod d)) = false) l.


Definition ExcludeStmt_eq_dec (a b : ExcludeStmt) : {a = b} + {a <> b}.
Proof. repeat decide equality. Defined.

Definition at_freeE (l : list ExcludeStmt) : Prop :=
  Forall (fun x => contains_at (Path (ExMod x)) = false) l.

(** What [AddReplace] can do to a destination replace. *)
Definition touchedR (o : string) (n : ModVersion) (r r' : ReplaceStmt) : Prop :=
  r' = r
  \/ (Path (Old r) = o
      /\ (r' = {| Old := Old r; New := n |} \/ r' = zeroReplace)).

(** One iteration of the loop over [src.Replace]. *)
Definition replaceStep (srcR : ReplaceStmt) (ds : list ReplaceStmt)
  : list ReplaceStmt :=
  match scanReplaces srcR ds with
  | NotFound =>
      AddReplace (Path (Old srcR)) (Version (Old srcR))
        (Path (New srcR)) (Version (New srcR)) ds
  | _ => ds
  end.


Definition at_freeR (l : list ReplaceStmt) : Prop :=
  Forall (fun r => contains_at (replacePath r) = false) l.




(** The inner loop for [srcR] ends by [break] and changes nothing. *)
Definition settled {SV : Semver} (force : bool) (srcR : RequireStmt)
    (l : list RequireStmt) : Prop :=
  scanRequires force srcR l = (l, Found).

(* ------------------------------------------------------------------ *)
(** ** Concrete manifests *)

Definition pkg : string := "example.com/pkg".

Definition destIndirect : File :=
  mkFile "example.com/a" [require pkg "v1.0.0" true] [] [].
Definition srcDirect : File :=
  mkFile "example.com/b" [require pkg "v1.0.0" false] [] [].
Definition srcDirectOlder : File :=
  mkFile "example.com/b" [require pkg "v0.9.0" false] [] [].

Definition destNewer : File :=
  mkFile "example.com/a" [require pkg "v1.2.0" false] [] [].
Definition srcOlder : File :=
  mkFile "example.com/b" [require pkg "v1.1.0" false] [] [].
Definition srcPseudo : File :=
  mkFile "example.com/b"
    [require pkg "v0.0.0-20190101000000-abcdef000000" false] [] [].

Definition destFork : File :=
  mkFile "example.com/a" [] []
    [replace pkg "v1.0.0" "local/pkg" "v1.0.0-fork"].
Definition srcFork : File :=
  mkFile "example.com/b" [] []
    [replace pkg "v1.0.0" "local/pkg" "v2.0.0-fork"].


Definition destEmpty : File := mkFile "example.com/a" [] [] [].
Definition srcSelf : File :=
  mkFile "example.com/b" [require "example.com/b" "v1.0.0" false] [] [].

Definition destMix : File :=
  mkFile "example.com/a"
    [require "example.com/x" "v1.0.0" false;
     require pkg "v1.2.0" true;
     require "example.com/b" "v0.3.0" false;
     require "example.com/z" "v2.0.0" false]
    [exclude "example.com/x" "v0.9.0"; exclude "example.com/y" "v0.1.0"]
    [replace "example.com/b" "" "../b" "";
     replace "example.com/x" "v1.0.0" "example.com/fork/x" "v1.0.1"].
Definition srcMix : File :=
  mkFile "example.com/b"
    [require "example.com/y" "v1.0.0" false;
     require pkg "v1.1.0" false;
     require "example.com/z" "v2.0.0" true]
    [exclude "example.com/y" "v0.1.0"; exclude "example.com/y" "v0.2.0";
     exclude "example.com/w" "v1.0.0"; exclude "example.com/w" "v1.0.0"]
    [replace "example.com/x" "v1.0.0" "example.com/fork/x" "v1.0.1";
     replace "example.com/y" "" "../y" ""].
Definition srcMixPseudo : File :=
  mkFile "example.com/b"
    [require "example.com/y" "v1.0.0" false;
     require pkg "v0.0.0-20190101000000-abcdef000000" false;
     require "example.com/z" "v2.0.0" true] [] [].
Definition outMix : File :=
  mkFile "example.com/a"
    [require "example.com/x" "v1.0.0" false;
     require pkg "v1.1.0" true;
     require "example.com/z" "v2.0.0" false;
     require "example.com/y" "v1.0.0" false;
     require pkg "v1.1.0" false]
    [exclude "example.com/x" "v0.9.0"; exclude "example.com/y" "v0.1.0";
     exclude "example.com/y" "v0.2.0"; exclude "example.com/w" "v1.0.0"]
    [replace "example.com/x" "v1.0.0" "example.com/fork/x" "v1.0.1";
     replace "example.com/y" "" "../y" ""].

Definition srcNew : File :=
  mkFile "example.com/b"
    [require "example.com/y" "v1.0.0" false;
     require "example.com/w" "not-a-version" true] [] [].
Definition srcAgree : File :=
  mkFile "example.com/b"
    [require pkg "v1.2.0" false;
     require "example.com/x" "v1.0.0" true] [] [].
Definition srcPartly : File :=
  mkFile "example.com/b"
    [require pkg "v1.2.0" false;
     require "example.com/y" "v1.0.0" false;
     require "example.com/x" "v1.0.0" true] [] [].
Definition destLocal : File :=
  mkFile "example.com/a" [] []
    [replace "example.com/k" "" "../k" "";
     replace "example.com/b" "" "../b" ""].

(** The version string parses and, unless forceOverwrite is set, has no
    pre-release tag. *)
Definition parses_plain {SV : Semver} (force : bool) (ver : string) : Prop :=
  exists v, NewVersion ver = Some v /\ (force = true \/ Prerelease v = "").

(* ------------------------------------------------------------------ *)
(** ** Strings and coordinates *)

Lemma contains_at_app (a b : string) :
  contains_at (a ++ b)%string = contains_at a || contains_at b.
Proof.
  induction a as [|c a IH]; simpl; [reflexivity|].
  rewrite IH. now rewrite orb_assoc.
Qed.

Lemma append_at_inj (p1 p2 v1 v2 : string) :
  contains_at p1 = false -> contains_at p2 = false ->
  (p1 ++ "@" ++ v1 = p2 ++ "@" ++ v2)%string -> p1 = p2 /\ v1 = v2.
Proof.
  revert p2. induction p1 as [|c p1 IH]; intros [|c2 p2] H1 H2 E; simpl in *.
  - injection E as E. now split.
  - injection E as Ec _. subst c2. simpl in H2. discriminate.
  - injection E as Ec _. subst c. simpl in H1. discriminate.
  - injection E as Ec E. subst c2.
    apply orb_false_iff in H1 as [_ H1]. apply orb_false_iff in H2 as [_ H2].
    destruct (IH p2 H1 H2 E) as [-> ->]. now split.
Qed.

(** On paths without '@', [ModString] determines the coordinate. *)
Lemma ModString_inj (a b : ModVersion) :
  contains_at (Path a) = false -> contains_at (Path b) = false ->
  ModString a = ModString b -> a = b.
Proof.
  destruct a as [pa va], b as [pb vb]; unfold ModString; simpl.
  intros Ha Hb E.
  destruct (String.eqb_spec va "") as [->|Hva],
           (String.eqb_spec vb "") as [->|Hvb].
  - now rewrite E.
  - rewrite E, contains_at_app in Ha. simpl in Ha.
    rewrite orb_true_r in Ha. discriminate.
  - rewrite <- E, contains_at_app in Hb. simpl in Hb.
    rewrite orb_true_r in Hb. discriminate.
  - destruct (append_at_inj _ _ _ _ Ha Hb E) as [-> ->]. reflexivity.
Qed.

Lemma ModString_eqb_false (a b : ModVersion) :
  contains_at (Path a) = false -> contains_at (Path b) = false ->
  a <> b -> (ModString a =? ModString b)%string = false.
Proof.
  intros Ha Hb N. apply String.eqb_neq. intro E. apply N.
  now apply ModString_inj.
Qed.

Lemma valid_path_at (p : string) : valid_path p = true -> contains_at p = false.
Proof.
  unfold valid_path. intros H. apply andb_true_iff in H as [_ H].
  now apply negb_true_iff in H.
Qed.

Lemma valid_path_nonempty (p : string) : valid_path p = true -> p <> "".
Proof.
  unfold valid_path. intros H. apply andb_true_iff in H as [H _].
  apply negb_true_iff in H. now apply String.eqb_neq.
Qed.

(* ------------------------------------------------------------------ *)
(** ** canCompare *)

Section Properties.
Context {SV : Semver}.

(** C8: [canCompare a b] holds exactly when both versions have an empty
    pre-release tag or both have a non-empty one. *)
Theorem canCompare_spec (a b : SemVersion) :
  canCompare a b = true <->
  (Prerelease a = "" /\ Prerelease b = "")
  \/ (Prerelease a <> "" /\ Prerelease b <> "").
Proof.
  unfold canCompare.
  destruct (String.eqb_spec (Prerelease a) ""),
           (String.eqb_spec (Prerelease b) ""); simpl; split; intro H;
    try discriminate; try reflexivity; tauto.
Qed.

(* ------------------------------------------------------------------ *)
(** ** The inner loop of mergeRequires *)

Lemma reconcileIndirect_id (srcR destR : RequireStmt) :
  reconcileIndirect srcR destR = destR.
Proof.
  unfold reconcileIndirect, setIndirect.
  destruct destR as [m [|]], srcR as [ms [|]]; reflexivity.
Qed.

Lemma reconcileVersion_touched force srcR destR destR' :
  reconcileVersion force srcR destR = inr destR' ->
  Path (Mod srcR) = Path (Mod destR) ->
  touched srcR destR destR'.
Proof.
  unfold reconcileVersion, bind, ok, fail. intros H HP.
  destruct (negb (Version (Mod srcR) =? Version (Mod destR))%string).
  - destruct (NewVersion (Version (Mod destR))) as [dv|]; [|discriminate].
    destruct (NewVersion (Version (Mod srcR))) as [sv|]; [|discriminate].
    destruct force.
    + injection H as <-. right. now split.
    + destruct (negb (canCompare dv sv)); [discriminate|].
      destruct (LessThan sv dv); injection H as <-.
      * right. now split.
      * now left.
  - injection H as <-. now left.
Qed.

Lemma reconcile_eq force srcR destR :
  reconcile force srcR destR = reconcileVersion force srcR destR.
Proof.
  unfold reconcile, bind, ok.
  destruct (reconcileVersion force srcR destR); [reflexivity|].
  now rewrite reconcileIndirect_id.
Qed.

Lemma reconcile_touched force srcR destR destR' :
  reconcile force srcR destR = inr destR' ->
  Path (Mod srcR) = Path (Mod destR) ->
  touched srcR destR destR'.
Proof.
  rewrite reconcile_eq. apply reconcileVersion_touched.
Qed.

Lemma scanRequires_touched force srcR ds :
  Forall2 (touched srcR) ds (fst (scanRequires force srcR ds)).
Proof.
  induction ds as [|d ds IH]; simpl; [constructor|].
  destruct (ModString (Mod srcR) =? ModString (Mod d))%string; simpl.
  - apply Forall2_cons; [now left|].
    clear IH. induction ds; constructor; [now left|assumption].
  - destruct (String.eqb_spec (Path (Mod srcR)) (Path (Mod d))) as [HP|HP].
    + destruct (reconcile force srcR d) as [e|d'] eqn:R; simpl.
      * apply Forall2_cons; [now left|].
        clear IH. induction ds; constructor; [now left|assumption].
      * destruct (scanRequires force srcR ds) as [rest' o]; simpl in *.
        constructor; [|assumption].
        eapply reconcile_touched; eauto.
    + destruct (scanRequires force srcR ds) as [rest' o]; simpl in *.
      constructor; [now left|assumption].
Qed.

Lemma touched_Path srcR d d' :
  touched srcR d d' -> Path (Mod d') = Path (Mod d).
Proof. intros [->|[_ ->]]; reflexivity. Qed.

Lemma touched_Indirect srcR d d' :
  touched srcR d d' -> Indirect d' = Indirect d.
Proof. intros [->|[_ ->]]; reflexivity. Qed.

Lemma touched_other srcR d d' :
  touched srcR d d' -> Path (Mod d) <> Path (Mod srcR) -> d' = d.
Proof. intros [->|[E _]] N; [reflexivity|contradiction]. Qed.

Lemma Forall2_nth_error {A B : Type} (R : A -> B -> Prop) l l' j x :
  Forall2 R l l' -> nth_error l j = Some x ->
  exists y, nth_error l' j = Some y /\ R x y.
Proof.
  intros F. revert j. induction F as [|a b l l' Hab F IH]; intros [|j] H;
    simpl in *; try discriminate.
  - injection H as <-. eauto.
  - eauto.
Qed.

Lemma scanRequires_length force srcR ds :
  length (fst (scanRequires force srcR ds)) = length ds.
Proof.
  symmetry. eapply Forall2_length, scanRequires_touched.
Qed.

Lemma scanRequires_paths force srcR ds :
  map requirePath (fst (scanRequires force srcR ds)) = map requirePath ds.
Proof.
  generalize (scanRequires_touched force srcR ds).
  generalize (fst (scanRequires force srcR ds)).
  intros l F. induction F as [|a b l l' Hab F IH]; simpl; [reflexivity|].
  unfold requirePath at 1 3. rewrite (touched_Path _ _ _ Hab). now rewrite IH.
Qed.

(** A destination require of another path is not modified by the loop. *)
Lemma scanRequires_frame force srcR ds j d :
  nth_error ds j = Some d ->
  Path (Mod d) <> Path (Mod srcR) ->
  nth_error (fst (scanRequires force srcR ds)) j = Some d.
Proof.
  intros H N.
  destruct (Forall2_nth_error _ _ _ j _ (scanRequires_touched force srcR ds) H)
    as (y & Hy & T).
  now rewrite (touched_other _ _ _ T N) in Hy.
Qed.

(** The indirect flag of a destination require is never modified. *)
Lemma scanRequires_Indirect force srcR ds j d :
  nth_error ds j = Some d ->
  exists d', nth_error (fst (scanRequires force srcR ds)) j = Some d'
             /\ Path (Mod d') = Path (Mod d)
             /\ Indirect d' = Indirect d.
Proof.
  intros H.
  destruct (Forall2_nth_error _ _ _ j _ (scanRequires_touched force srcR ds) H)
    as (y & Hy & T).
  exists y. split; [assumption|].
  split; [eapply touched_Path|eapply touched_Indirect]; eassumption.
Qed.

(* ------------------------------------------------------------------ *)
(** ** The outer loop of mergeRequires *)

Lemma requireLoop_frame force srcs : forall ds j d,
  nth_error ds j = Some d ->
  ~ In (Path (Mod d)) (map requirePath srcs) ->
  nth_error (fst (requireLoop force srcs ds)) j = Some d.
Proof.
  induction srcs as [|s srcs IH]; intros ds j d H N; simpl; [assumption|].
  simpl in N.
  assert (Hs : Path (Mod d) <> Path (Mod s)).
  { intro E. apply N. left. now rewrite E. }
  assert (Hr : ~ In (Path (Mod d)) (map requirePath srcs)) by tauto.
  pose proof (scanRequires_frame force s ds j d H Hs) as F.
  destruct (scanRequires force s ds) as [ds' [| |e]]; simpl in *.
  - now apply IH.
  - apply IH; [|assumption]. unfold AddNewRequire.
    rewrite nth_error_app1; [assumption|].
    apply nth_error_Some. congruence.
  - assumption.
Qed.

Lemma DropRequire_frame path ds j d :
  nth_error ds j = Some d -> Path (Mod d) <> path ->
  nth_error (DropRequire path ds) j = Some d.
Proof.
  intros H N. unfold DropRequire. rewrite nth_error_map, H. simpl.
  destruct (String.eqb_spec (Path (Mod d)) path); [contradiction|reflexivity].
Qed.

Lemma mergeRequires_Requires dest src force :
  Requires (fst (mergeRequires dest src force))
  = fst (requireLoop force (Requires src)
           (DropRequire (ModulePath src) (Requires dest))).
Proof.
  unfold mergeRequires.
  destruct (requireLoop force (Requires src) _); reflexivity.
Qed.

Lemma mergeRequires_error dest src force :
  snd (mergeRequires dest src force)
  = snd (requireLoop force (Requires src)
           (DropRequire (ModulePath src) (Requires dest))).
Proof.
  unfold mergeRequires.
  destruct (requireLoop force (Requires src) _); reflexivity.
Qed.

Lemma requireLoop_Indirect force srcs : forall ds j d,
  nth_error ds j = Some d ->
  exists d', nth_error (fst (requireLoop force srcs ds)) j = Some d'
             /\ Path (Mod d') = Path (Mod d)
             /\ Indirect d' = Indirect d.
Proof.
  induction srcs as [|s srcs IH]; intros ds j d H; simpl.
  - now exists d.
  - destruct (scanRequires_Indirect force s ds j d H) as (d1 & H1 & P1 & I1).
    destruct (scanRequires force s ds) as [ds' [| |e]]; simpl in *.
    + destruct (IH ds' j d1 H1) as (d' & H' & P' & I'). exists d'.
      repeat split; congruence.
    + assert (H2 : nth_error (AddNewRequire (Path (Mod s)) (Version (Mod s))
                                (Indirect s) ds') j = Some d1).
      { unfold AddNewRequire. rewrite nth_error_app1; [assumption|].
        apply nth_error_Some. congruence. }
      destruct (IH _ j d1 H2) as (d' & H' & P' & I'). exists d'.
      repeat split; congruence.
    + now exists d1.
Qed.

(** mergeRequires never changes the indirect flag of a destination require
    that is not a require of the source module. *)
Lemma mergeRequires_Indirect (dest src : File) (force : bool)
    (j : nat) (d : RequireStmt) :
  nth_error (Requires dest) j = Some d ->
  Path (Mod d) <> ModulePath src ->
  exists d', nth_error (Requires (fst (mergeRequires dest src force))) j
             = Some d'
             /\ Path (Mod d') = Path (Mod d)
             /\ Indirect d' = Indirect d.
Proof.
  intros H Hm. rewrite mergeRequires_Requires.
  apply requireLoop_Indirect. now apply DropRequire_frame.
Qed.

(** C10: a destination require whose path is neither the source module
    nor required by the source is, after mergeRequires, still at its place
    with the same path, version and indirect flag. *)
Theorem mergeRequires_frame (dest src : File) (force : bool)
    (j : nat) (d : RequireStmt) :
  nth_error (Requires dest) j = Some d ->
  Path (Mod d) <> ModulePath src ->
  (forall s, In s (Requires src) -> Path (Mod s) <> Path (Mod d)) ->
  nth_error (Requires (fst (mergeRequires dest src force))) j = Some d.
Proof.
  intros H Hm Hs. rewrite mergeRequires_Requires.
  apply requireLoop_frame.
  - now apply DropRequire_frame.
  - intro HIn. apply in_map_iff in HIn as (s & E & HIn).
    apply (Hs s HIn). exact E.
Qed.

(* ------------------------------------------------------------------ *)
(** ** The destination require that a source require meets *)

Lemma scanRequires_skip force srcR a : forall b,
  Forall (fun d => unrelated srcR d = true) a ->
  scanRequires force srcR (a ++ b)
  = (a ++ fst (scanRequires force srcR b), snd (scanRequires force srcR b)).
Proof.
  induction a as [|d a IH]; intros b F; simpl.
  - now destruct (scanRequires force srcR b).
  - inversion F as [|? ? Hd Fa]; subst.
    unfold unrelated in Hd. apply andb_true_iff in Hd as [H1 H2].
    apply negb_true_iff in H1, H2. rewrite H1, H2, (IH b Fa). reflexivity.
Qed.



(** The paths after the loop: those of the destination, in place, followed
    by paths of source requires. *)
Lemma requireLoop_paths force srcs : forall ds,
  exists added,
    map requirePath (fst (requireLoop force srcs ds))
    = map requirePath ds ++ added
    /\ incl added (map requirePath srcs).
Proof.
  induction srcs as [|s srcs IH]; intros ds; simpl.
  - exists []. rewrite app_nil_r. split; [reflexivity|apply incl_nil_l].
  - pose proof (scanRequires_paths force s ds) as P.
    destruct (scanRequires force s ds) as [ds' [| |e]]; simpl in *.
    + destruct (IH ds') as (added & E & I). exists added.
      rewrite E, P. split; [reflexivity|now apply incl_tl].
    + destruct (IH (AddNewRequire (Path (Mod s)) (Version (Mod s))
                      (Indirect s) ds')) as (added & E & I).
      exists (requirePath s :: added). rewrite E. unfold AddNewRequire.
      rewrite map_app, P, <- app_assoc. simpl. split; [reflexivity|].
      apply incl_cons; [now left|now apply incl_tl].
    + exists []. rewrite app_nil_r, P.
      split; [reflexivity|apply incl_nil_l].
Qed.









(* ------------------------------------------------------------------ *)
(** ** Version reconciliation in mergeRequires *)

Lemma well_formed_requires (f : File) :
  well_formed f ->
  Forall (fun r => valid_path (Path (Mod r)) = true) (Requires f).
Proof.
  unfold well_formed, filePaths. intros H.
  apply Forall_app in H as [H _].
  rewrite Forall_forall in *. intros r Hr.
  apply H. now apply (in_map requirePath).
Qed.

Lemma well_formed_at_free (f : File) :
  well_formed f -> at_free (Requires f).
Proof.
  intros H. apply well_formed_requires in H. unfold at_free.
  eapply Forall_impl; [|exact H]. intros r. apply valid_path_at.
Qed.

Lemma DropRequire_at_free path ds :
  at_free ds -> at_free (DropRequire path ds).
Proof.
  unfold at_free, DropRequire. intros H. apply Forall_map.
  eapply Forall_impl; [|exact H]. intros r Hr. simpl.
  now destruct (Path (Mod r) =? path)%string.
Qed.










(* ------------------------------------------------------------------ *)
(** ** mergeExcludes *)

Lemma scanExcludes_In srcE ds :
  In srcE ds -> scanExcludes srcE ds = true.
Proof.
  induction ds as [|d ds IH]; simpl; [tauto|].
  intros [->|H].
  - now rewrite String.eqb_refl.
  - destruct (ModString (ExMod srcE) =? ModString (ExMod d))%string; auto.
Qed.

Lemma scanExcludes_found srcE ds :
  contains_at (Path (ExMod srcE)) = false -> at_freeE ds ->
  scanExcludes srcE ds = true -> In srcE ds.
Proof.
  intros Hs Hd. induction Hd as [|d ds Hd _ IH]; simpl; [discriminate|].
  destruct (String.eqb_spec (ModString (ExMod srcE)) (ModString (ExMod d)))
    as [E|_].
  - intros _. left. apply ModString_inj in E; auto.
    destruct srcE, d; simpl in *. congruence.
  - intros H. right. auto.
Qed.

Lemma AddExclude_new srcE ds :
  ~ In srcE ds ->
  AddExclude (Path (ExMod srcE)) (Version (ExMod srcE)) ds = ds ++ [srcE].
Proof.
  intros N. unfold AddExclude.
  destruct (existsb _ ds) eqn:E.
  - apply existsb_exists in E as (x & Hx & E).
    apply andb_true_iff in E as [E1 E2].
    apply String.eqb_eq in E1, E2. elim N.
    destruct srcE as [[p v]], x as [[p' v']]; simpl in *. now subst.
  - destruct srcE as [[p v]]; reflexivity.
Qed.

Lemma excludeLoop_union srcs : forall ds,
  at_freeE ds -> at_freeE srcs ->
  exists added,
    excludeLoop srcs ds = ds ++ added
    /\ NoDup added
    /\ (forall e, In e added <-> In e srcs /\ ~ In e ds).
Proof.
  induction srcs as [|s srcs IH]; intros ds Fd Fs; simpl.
  - exists []. rewrite app_nil_r. split; [reflexivity|].
    split; [constructor|]. simpl. tauto.
  - inversion Fs as [|? ? Hs Fs']; subst.
    destruct (scanExcludes s ds) eqn:Sc.
    + apply scanExcludes_found in Sc; auto.
      destruct (IH ds Fd Fs') as (added & E & ND & I).
      exists added. split; [exact E|]. split; [exact ND|].
      intros e. rewrite I. simpl. split; [tauto|].
      intros [[<-|H] N]; [contradiction|tauto].
    + assert (N : ~ In s ds).
      { intro H. apply scanExcludes_In in H. congruence. }
      rewrite (AddExclude_new s ds N).
      destruct (IH (ds ++ [s])) as (added & E & ND & I); auto.
      { unfold at_freeE. apply Forall_app. split; [exact Fd|].
        now constructor. }
      exists (s :: added). rewrite E, <- app_assoc. split; [reflexivity|].
      split.
      * constructor; [|exact ND]. intro H. apply I in H as [_ H].
        apply H. apply in_or_app. right. now left.
      * intros e. simpl. rewrite I. rewrite in_app_iff. simpl.
        destruct (ExcludeStmt_eq_dec s e) as [<-|Ne]; [tauto|].
        tauto.
Qed.

Lemma well_formed_at_freeE (f : File) :
  well_formed f -> at_freeE (Excludes f).
Proof.
  unfold well_formed, filePaths, at_freeE. intros H.
  apply Forall_app in H as [_ H]. apply Forall_app in H as [_ H].
  rewrite Forall_forall in *. intros x Hx. apply valid_path_at.
  apply H. now apply (in_map excludePath).
Qed.

(** C7: when no exclusion path contains '@', mergeExcludes never fails,
    touches only the exclusions, and leaves the destination exclusions
    followed by the source exclusions that were missing, each of them
    once. *)
Theorem mergeExcludes_union (dest src : File) :
  at_freeE (Excludes dest) -> at_freeE (Excludes src) ->
  snd (mergeExcludes dest src) = None
  /\ ModulePath (fst (mergeExcludes dest src)) = ModulePath dest
  /\ Requires (fst (mergeExcludes dest src)) = Requires dest
  /\ Replaces (fst (mergeExcludes dest src)) = Replaces dest
  /\ exists added,
       Excludes (fst (mergeExcludes dest src)) = Excludes dest ++ added
       /\ NoDup added
       /\ (forall e, In e added <->
                     In e (Excludes src) /\ ~ In e (Excludes dest)).
Proof.
  intros Fd Fs. simpl. repeat split.
  now apply excludeLoop_union.
Qed.

(* ------------------------------------------------------------------ *)
(** ** mergeReplacements *)

Lemma ModString_fields (a b : ModVersion) :
  Path a = Path b -> Version a = Version b -> ModString a = ModString b.
Proof. unfold ModString. now intros -> ->. Qed.

(** The conflict check of lines 170-174 is never reached with a conflict:
    two old coordinates equal in path and version print the same, and the
    loop has left by [break] before. *)
Lemma scanReplaces_no_abort srcR ds e :
  scanReplaces srcR ds <> Abort e.
Proof.
  induction ds as [|d ds IH]; simpl; [discriminate|].
  destruct (String.eqb_spec (ModString (Old srcR)) (ModString (Old d)))
    as [E|N]; [discriminate|].
  destruct (String.eqb_spec (Path (Old srcR)) (Path (Old d))) as [EP|NP];
    simpl; [|exact IH].
  destruct (String.eqb_spec (Version (Old srcR)) (Version (Old d)))
    as [EV|NV]; simpl; [|exact IH].
  elim N. now apply ModString_fields.
Qed.

(** mergeReplacements never returns an error. *)
Lemma replaceLoop_no_error srcs : forall ds,
  snd (replaceLoop srcs ds) = None.
Proof.
  induction srcs as [|s srcs IH]; intros ds; simpl; [reflexivity|].
  pose proof (scanReplaces_no_abort s ds) as N.
  destruct (scanReplaces s ds); auto. now elim (N e).
Qed.

Lemma mergeReplacements_no_error dest src :
  snd (mergeReplacements dest src) = None.
Proof.
  unfold mergeReplacements.
  pose proof (replaceLoop_no_error (Replaces src)
                (dropSelfReplaces (ModulePath src) (Replaces dest))) as H.
  now destruct (replaceLoop _ _).
Qed.

Lemma replaceLoop_fold srcs : forall ds,
  replaceLoop srcs ds = (fold_left (fun l s => replaceStep s l) srcs ds, None).
Proof.
  induction srcs as [|s srcs IH]; intros ds; simpl; [reflexivity|].
  unfold replaceStep. pose proof (scanReplaces_no_abort s ds) as N.
  destruct (scanReplaces s ds); auto. now elim (N e).
Qed.

Lemma addReplaceLoop_touched o v n rs : forall need,
  Forall2 (touchedR o n) rs (fst (addReplaceLoop o v n need rs)).
Proof.
  induction rs as [|r rs IH]; intros need; simpl; [constructor|].
  destruct (String.eqb_spec (Path (Old r)) o) as [E|N]; simpl.
  - destruct ((v =? "")%string || (Version (Old r) =? v)%string).
    + destruct need.
      * specialize (IH false).
        destruct (addReplaceLoop o v n false rs); simpl in *.
        constructor; [|assumption]. right. split; [assumption|now left].
      * specialize (IH false).
        destruct (addReplaceLoop o v n false rs); simpl in *.
        constructor; [|assumption]. right. split; [assumption|now right].
    + specialize (IH need).
      destruct (addReplaceLoop o v n need rs); simpl in *.
      constructor; [now left|assumption].
  - specialize (IH need).
    destruct (addReplaceLoop o v n need rs); simpl in *.
    constructor; [now left|assumption].
Qed.

(** A property of old paths that holds of the empty path and of the path
    of [srcR] is kept by one iteration. *)
Lemma replaceStep_Forall (P : string -> Prop) srcR ds :
  P "" -> P (replacePath srcR) ->
  Forall (fun r => P (replacePath r)) ds ->
  Forall (fun r => P (replacePath r)) (replaceStep srcR ds).
Proof.
  intros P0 Ps F. unfold replaceStep.
  destruct (scanReplaces srcR ds); try assumption.
  unfold AddReplace.
  pose proof (addReplaceLoop_touched (Path (Old srcR)) (Version (Old srcR))
                {| Path := Path (New srcR); Version := Version (New srcR) |}
                ds true) as T.
  destruct (addReplaceLoop _ _ _ true ds) as [rs' need]; simpl in T.
  assert (F' : Forall (fun r => P (replacePath r)) rs').
  { clear need. induction T as [|r r' l l' Hr T IH]; [constructor|].
    inversion F; subst. constructor; [|now apply IH].
    destruct Hr as [->|[_ [->| ->]]]; assumption. }
  destruct need; [|assumption].
  apply Forall_app. split; [assumption|]. now constructor.
Qed.

Lemma replaceFold_Forall (P : string -> Prop) srcs : forall ds,
  P "" -> Forall (fun r => P (replacePath r)) srcs ->
  Forall (fun r => P (replacePath r)) ds ->
  Forall (fun r => P (replacePath r))
         (fold_left (fun l s => replaceStep s l) srcs ds).
Proof.
  induction srcs as [|s srcs IH]; intros ds P0 Fs Fd; simpl; [assumption|].
  inversion Fs; subst. apply IH; auto. now apply replaceStep_Forall.
Qed.

Lemma fold_DropReplace vs : forall rs,
  fold_left (fun acc v => DropReplace (Path v) (Version v) acc) vs rs
  = map (fun r => if existsb (ModVersion_eqb (Old r)) vs
                  then zeroReplace else r) rs.
Proof.
  induction vs as [|v vs IH]; intros rs; simpl.
  - now rewrite map_id.
  - rewrite IH. unfold DropReplace. rewrite map_map.
    apply map_ext. intros r. unfold ModVersion_eqb at 2.
    destruct ((Path (Old r) =? Path v)%string
              && (Version (Old r) =? Version v)%string); simpl.
    + now destruct (existsb _ vs).
    + reflexivity.
Qed.

(** Lines 151-160 zero exactly the replaces of the source module. *)
Lemma dropSelfReplaces_map srcPath rs :
  dropSelfReplaces srcPath rs
  = map (fun r => if (Path (Old r) =? srcPath)%string
                  then zeroReplace else r) rs.
Proof.
  unfold dropSelfReplaces. rewrite fold_DropReplace.
  apply map_ext_in. intros r Hr.
  destruct (String.eqb_spec (Path (Old r)) srcPath) as [E|N].
  - assert (H : existsb (ModVersion_eqb (Old r)) (dropVersions srcPath rs)
              = true); [|now rewrite H].
    apply existsb_exists. exists (Old r). split.
    + unfold dropVersions. apply in_map. apply filter_In. split; [exact Hr|].
      now apply String.eqb_eq.
    + unfold ModVersion_eqb. now rewrite !String.eqb_refl.
  - assert (H : existsb (ModVersion_eqb (Old r)) (dropVersions srcPath rs)
              = false); [|now rewrite H].
    apply not_true_is_false. intro H.
    apply existsb_exists in H as (v & Hv & E).
    unfold dropVersions in Hv. apply in_map_iff in Hv as (r' & <- & Hr').
    apply filter_In in Hr' as [_ Hr']. apply String.eqb_eq in Hr'.
    unfold ModVersion_eqb in E. apply andb_true_iff in E as [E _].
    apply String.eqb_eq in E. congruence.
Qed.

Lemma DropRequire_absent path rs :
  ~ In path (map requirePath rs) -> DropRequire path rs = rs.
Proof.
  intros N. unfold DropRequire. rewrite <- (map_id rs) at 2.
  apply map_ext_in. intros r Hr.
  destruct (String.eqb_spec (Path (Mod r)) path) as [E|_]; [|reflexivity].
  elim N. rewrite <- E. now apply (in_map requirePath).
Qed.

Lemma dropSelfReplaces_absent path rs :
  ~ In path (map replacePath rs) -> dropSelfReplaces path rs = rs.
Proof.
  intros N. rewrite dropSelfReplaces_map. rewrite <- (map_id rs) at 2.
  apply map_ext_in. intros r Hr.
  destruct (String.eqb_spec (Path (Old r)) path) as [E|_]; [|reflexivity].
  elim N. rewrite <- E. now apply (in_map replacePath).
Qed.

(* ------------------------------------------------------------------ *)
(** ** The pipeline of run *)

Lemma mergeReplacements_eq dest src :
  mergeReplacements dest src
  = (setReplaces dest
       (fold_left (fun l s => replaceStep s l) (Replaces src)
          (dropSelfReplaces (ModulePath src) (Replaces dest))), None).
Proof.
  unfold mergeReplacements. now rewrite replaceLoop_fold.
Qed.

Lemma run_inr dest src force out :
  run dest src force = inr out ->
  snd (mergeRequires dest src force) = None
  /\ ModulePath out = ModulePath dest
  /\ Requires out
     = filter (fun r => negb (Path (Mod r) =? "")%string)
         (Requires (fst (mergeRequires dest src force)))
  /\ Replaces out
     = filter (fun r => negb (Path (Old r) =? "")%string)
         (fold_left (fun l s => replaceStep s l) (Replaces src)
            (dropSelfReplaces (ModulePath src) (Replaces dest)))
  /\ Excludes out
     = filter (fun x => negb (Path (ExMod x) =? "")%string)
         (excludeLoop (Excludes src) (Excludes dest)).
Proof.
  unfold run. rewrite mergeRequires_Requires.
  unfold mergeRequires.
  destruct (requireLoop force (Requires src) _) as [ds' [e|]]; simpl;
    [discriminate|].
  rewrite mergeReplacements_eq. simpl. unfold ok.
  intros H. injection H as <-. simpl. repeat split.
Qed.

(* ------------------------------------------------------------------ *)
(** ** Self-references *)

Lemma requires_not_self dest src force r :
  ~ In (ModulePath src) (map requirePath (Requires src)) ->
  In r (Requires (fst (mergeRequires dest src force))) ->
  Path (Mod r) = "" \/ Path (Mod r) <> ModulePath src.
Proof.
  intros N Hr. rewrite mergeRequires_Requires in Hr.
  destruct (requireLoop_paths force (Requires src)
              (DropRequire (ModulePath src) (Requires dest)))
    as (added & E & I).
  apply (in_map requirePath) in Hr. rewrite E in Hr.
  apply in_app_or in Hr as [Hr|Hr].
  - unfold DropRequire in Hr. rewrite map_map in Hr.
    apply in_map_iff in Hr as (r0 & E0 & _). unfold requirePath in E0.
    destruct (String.eqb_spec (Path (Mod r0)) (ModulePath src)) as [_|N0].
    + left. now rewrite <- E0.
    + right. now rewrite <- E0.
  - right. intro E0. apply N. apply I. unfold requirePath in Hr.
    now rewrite <- E0.
Qed.

Lemma replaces_not_self dest src :
  ~ In (ModulePath src) (map replacePath (Replaces src)) ->
  Forall (fun r => replacePath r = "" \/ replacePath r <> ModulePath src)
    (fold_left (fun l s => replaceStep s l) (Replaces src)
       (dropSelfReplaces (ModulePath src) (Replaces dest))).
Proof.
  intros N.
  apply (replaceFold_Forall (fun p => p = "" \/ p <> ModulePath src)).
  - now left.
  - apply Forall_forall. intros r Hr. right. intro E. apply N.
    rewrite <- E. now apply in_map.
  - rewrite dropSelfReplaces_map. apply Forall_map. apply Forall_forall.
    intros r _. unfold replacePath.
    destruct (String.eqb_spec (Path (Old r)) (ModulePath src)); simpl;
      [now left|now right].
Qed.

Lemma run_drops_self dest src force out :
  no_self_reference src ->
  run dest src force = inr out ->
  (forall r, In r (Requires out) -> Path (Mod r) <> ModulePath src)
  /\ (forall r, In r (Replaces out) -> Path (Old r) <> ModulePath src).
Proof.
  intros [N1 N2] Hrun.
  apply run_inr in Hrun as (_ & _ & HR & HP & _). split.
  - intros r Hr. rewrite HR in Hr. apply filter_In in Hr as [Hr Hne].
    apply negb_true_iff, String.eqb_neq in Hne.
    destruct (requires_not_self dest src force r N1 Hr); tauto.
  - intros r Hr. rewrite HP in Hr. apply filter_In in Hr as [Hr Hne].
    apply negb_true_iff, String.eqb_neq in Hne.
    pose proof (replaces_not_self dest src N2) as F.
    rewrite Forall_forall in F. destruct (F r Hr); tauto.
Qed.

(** C6, as the code has it: when the source manifest does not require or
    replace its own module, a successful merge leaves no require and no
    replace of the source module; and when the destination has no such
    statement, dropping them changes nothing. *)
Theorem run_no_self_reference :
  (forall (dest src : File) (force : bool) (out : File),
     no_self_reference src ->
     run dest src force = inr out ->
     (forall r, In r (Requires out) -> Path (Mod r) <> ModulePath src)
     /\ (forall r, In r (Replaces out) -> Path (Old r) <> ModulePath src))
  /\ (forall (dest src : File),
        (~ In (ModulePath src) (map requirePath (Requires dest)) ->
         DropRequire (ModulePath src) (Requires dest) = Requires dest)
        /\ (~ In (ModulePath src) (map replacePath (Replaces dest)) ->
            dropSelfReplaces (ModulePath src) (Replaces dest)
            = Replaces dest)).
Proof.
  split.
  - apply run_drops_self.
  - intros dest src. split.
    + apply DropRequire_absent.
    + apply dropSelfReplaces_absent.
Qed.

(* ------------------------------------------------------------------ *)
(** ** Lists that differ in statements a scan passes over *)







(* ------------------------------------------------------------------ *)
(** ** Requires that the destination already settles *)




Lemma unrelated_other_path srcR d :
  contains_at (Path (Mod srcR)) = false ->
  contains_at (Path (Mod d)) = false ->
  Path (Mod d) <> Path (Mod srcR) ->
  unrelated srcR d = true.
Proof.
  intros Hs Hd N. unfold unrelated. apply andb_true_iff.
  split; apply negb_true_iff.
  - apply ModString_eqb_false; congruence.
  - apply String.eqb_neq. congruence.
Qed.


Lemma at_free_paths l l' :
  map requirePath l = map requirePath l' -> at_free l -> at_free l'.
Proof.
  unfold at_free. intros E F.
  assert (F' : Forall (fun p => contains_at p = false) (map requirePath l)).
  { apply Forall_map. exact F. }
  rewrite E in F'. rewrite Forall_map in F'. exact F'.
Qed.




Lemma requireLoop_all_settled force srcs l :
  (forall s, In s srcs -> settled force s l) ->
  requireLoop force srcs l = (l, None).
Proof.
  induction srcs as [|s srcs IH]; intros H; simpl; [reflexivity|].
  rewrite (H s (or_introl eq_refl)). apply IH.
  intros s' Hs'. apply H. now right.
Qed.


(* ------------------------------------------------------------------ *)
(** ** A require absent from the destination is added once *)




Lemma scanRequires_absent force srcR ds :
  at_free ds -> contains_at (Path (Mod srcR)) = false ->
  ~ In (Path (Mod srcR)) (map requirePath ds) ->
  scanRequires force srcR ds = (ds, NotFound).
Proof.
  intros F Hs N.
  assert (U : Forall (fun d => unrelated srcR d = true) ds).
  { unfold at_free in F. rewrite Forall_forall in *. intros d Hd.
    apply unrelated_other_path; auto.
    intro E. apply N. rewrite <- E. now apply (in_map requirePath). }
  pose proof (scanRequires_skip force srcR ds [] U) as H.
  simpl in H. now rewrite !app_nil_r in H.
Qed.


(* ------------------------------------------------------------------ *)
(** ** Replaces that the destination already settles *)
















(* ------------------------------------------------------------------ *)
(** ** A replace absent from the destination is added once *)







(* ------------------------------------------------------------------ *)
(** ** Exclusions: added once, then found *)

Lemma excludeLoop_all_found srcs l :
  (forall s, In s srcs -> scanExcludes s l = true) ->
  excludeLoop srcs l = l.
Proof.
  induction srcs as [|s srcs IH]; intros H; simpl; [reflexivity|].
  rewrite (H s (or_introl eq_refl)). apply IH.
  intros s' Hs'. apply H. now right.
Qed.


Lemma excludeLoop_contains srcs ds s :
  at_freeE ds -> at_freeE srcs -> In s srcs ->
  In s (excludeLoop srcs ds).
Proof.
  intros Fd Fs Hin.
  destruct (excludeLoop_union srcs ds Fd Fs) as (added & -> & _ & I).
  apply in_or_app.
  destruct (in_dec ExcludeStmt_eq_dec s ds) as [H|H]; [now left|].
  right. apply I. now split.
Qed.


(* ------------------------------------------------------------------ *)
(** ** Merging twice *)

Lemma well_formed_replaces (f : File) :
  well_formed f ->
  Forall (fun r => valid_path (replacePath r) = true) (Replaces f).
Proof.
  unfold well_formed, filePaths. intros H.
  apply Forall_app in H as [_ H]. apply Forall_app in H as [H _].
  rewrite Forall_forall in *. intros r Hr. apply H. now apply in_map.
Qed.

Lemma well_formed_excludes (f : File) :
  well_formed f ->
  Forall (fun x => valid_path (excludePath x) = true) (Excludes f).
Proof.
  unfold well_formed, filePaths. intros H.
  apply Forall_app in H as [_ H]. apply Forall_app in H as [_ H].
  rewrite Forall_forall in *. intros r Hr. apply H. now apply in_map.
Qed.

Lemma well_formed_at_freeR (f : File) :
  well_formed f -> at_freeR (Replaces f).
Proof.
  intros H. apply well_formed_replaces in H. unfold at_freeR.
  eapply Forall_impl; [|exact H]. intros r. apply valid_path_at.
Qed.

Lemma dropSelfReplaces_at_freeR path ds :
  at_freeR ds -> at_freeR (dropSelfReplaces path ds).
Proof.
  rewrite dropSelfReplaces_map. unfold at_freeR. intros H.
  apply Forall_map. eapply Forall_impl; [|exact H]. intros r Hr.
  unfold replacePath in *. now destruct (Path (Old r) =? path)%string.
Qed.

Lemma DropRequire_paths path ds p :
  p <> "" -> ~ In p (map requirePath ds) ->
  ~ In p (map requirePath (DropRequire path ds)).
Proof.
  intros Np N H. unfold DropRequire in H. rewrite map_map in H.
  apply in_map_iff in H as (r & E & Hr).
  destruct (Path (Mod r) =? path)%string.
  - now apply Np.
  - apply N. rewrite <- E. now apply in_map.
Qed.



End Properties.

(* ------------------------------------------------------------------ *)
(** ** Further properties of the passes *)

Section Further.
Context {SV : Semver}.

(** X1: canCompare is an equivalence on versions: reflexive, symmetric and
    transitive. *)
Theorem canCompare_equivalence :
  (forall a : SemVersion, canCompare a a = true)
  /\ (forall a b : SemVersion, canCompare a b = canCompare b a)
  /\ (forall a b c : SemVersion,
        canCompare a b = true -> canCompare b c = true ->
        canCompare a c = true).
Proof.
  unfold canCompare. repeat split.
  - intros a. now destruct (Prerelease a =? "")%string.
  - intros a b.
    now destruct (Prerelease a =? "")%string, (Prerelease b =? "")%string.
  - intros a b c.
    now destruct (Prerelease a =? "")%string, (Prerelease b =? "")%string,
                 (Prerelease c =? "")%string.
Qed.

(** X2: mergeReplacements returns a nil error on every pair of manifests,
    and leaves the module path, the requires and the exclusions of the
    destination as they are. *)
Theorem mergeReplacements_never_fails (dest src : File) :
  snd (mergeReplacements dest src) = None
  /\ ModulePath (fst (mergeReplacements dest src)) = ModulePath dest
  /\ Requires (fst (mergeReplacements dest src)) = Requires dest
  /\ Excludes (fst (mergeReplacements dest src)) = Excludes dest.
Proof.
  rewrite mergeReplacements_eq. simpl. repeat split.
Qed.

(* Errors of the requirement pass *)

Lemma reconcile_error force srcR destR e :
  reconcile force srcR destR = inl e ->
  (exists v, e = ErrInvalidSemVer v /\ NewVersion v = None
             /\ (v = Version (Mod destR) \/ v = Version (Mod srcR)))
  \/ (force = false
      /\ e = ErrIrreconcilable (Mod destR) (Mod srcR)
      /\ Version (Mod srcR) <> Version (Mod destR)
      /\ exists dv sv,
           NewVersion (Version (Mod destR)) = Some dv
           /\ NewVersion (Version (Mod srcR)) = Some sv
           /\ canCompare dv sv = false).
Proof.
  rewrite reconcile_eq. unfold reconcileVersion, bind, ok, fail.
  destruct (String.eqb_spec (Version (Mod srcR)) (Version (Mod destR)))
    as [E|N]; simpl; [discriminate|].
  destruct (NewVersion (Version (Mod destR))) as [dv|] eqn:Hd.
  - destruct (NewVersion (Version (Mod srcR))) as [sv|] eqn:Hs.
    + destruct force; [discriminate|].
      destruct (canCompare dv sv) eqn:Hc; simpl.
      * now destruct (LessThan sv dv).
      * intros H. injection H as <-. right. repeat split; auto.
        exists dv, sv. auto.
    + intros H. injection H as <-. left.
      exists (Version (Mod srcR)). auto.
  - intros H. injection H as <-. left.
    exists (Version (Mod destR)). auto.
Qed.

Lemma scanRequires_error force srcR ds e :
  snd (scanRequires force srcR ds) = Abort e ->
  (exists v, e = ErrInvalidSemVer v /\ NewVersion v = None)
  \/ (force = false
      /\ exists d dv sv,
           e = ErrIrreconcilable d (Mod srcR)
           /\ Path d = Path (Mod srcR)
           /\ Version d <> Version (Mod srcR)
           /\ NewVersion (Version d) = Some dv
           /\ NewVersion (Version (Mod srcR)) = Some sv
           /\ canCompare dv sv = false).
Proof.
  induction ds as [|d ds IH]; simpl; [discriminate|].
  destruct (ModString (Mod srcR) =? ModString (Mod d))%string;
    [discriminate|].
  destruct (String.eqb_spec (Path (Mod srcR)) (Path (Mod d))) as [EP|NP].
  - destruct (reconcile force srcR d) as [e'|d'] eqn:R; simpl.
    + intros H. injection H as <-.
      destruct (reconcile_error force srcR d e' R)
        as [(v & -> & Hv & _)|(Hf & -> & HV & dv & sv & Hd & Hs & Hc)].
      * left. now exists v.
      * right. split; [exact Hf|]. exists (Mod d), dv, sv.
        repeat split; auto.
    + now destruct (scanRequires force srcR ds).
  - now destruct (scanRequires force srcR ds).
Qed.

Lemma requireLoop_errors force srcs : forall ds e,
  snd (requireLoop force srcs ds) = Some e ->
  (exists v, e = ErrInvalidSemVer v /\ NewVersion v = None)
  \/ (force = false
      /\ exists d s dv sv,
           e = ErrIrreconcilable d (Mod s)
           /\ In s srcs
           /\ Path d = Path (Mod s)
           /\ Version d <> Version (Mod s)
           /\ NewVersion (Version d) = Some dv
           /\ NewVersion (Version (Mod s)) = Some sv
           /\ canCompare dv sv = false).
Proof.
  induction srcs as [|s srcs IH]; intros ds e; simpl; [discriminate|].
  pose proof (scanRequires_error force s ds) as E.
  destruct (scanRequires force s ds) as [ds' [| |e']]; simpl in *.
  - intros H. destruct (IH _ _ H) as [L|(Hf & d & s' & dv & sv & R)];
      [now left|].
    right. split; [exact Hf|]. exists d, s', dv, sv. intuition.
  - intros H. destruct (IH _ _ H) as [L|(Hf & d & s' & dv & sv & R)];
      [now left|].
    right. split; [exact Hf|]. exists d, s', dv, sv. intuition.
  - intros H. injection H as <-.
    destruct (E e' eq_refl) as [L|(Hf & d & dv & sv & R)]; [now left|].
    right. split; [exact Hf|]. exists d, s, dv, sv. intuition.
Qed.

(** X4: an error returned by mergeRequires is either the parse error of a
    version string that semver.NewVersion rejects, or, without
    forceOverwrite only, the error naming a destination coordinate and the
    coordinate of a source require of the same path whose versions differ,
    both parse and are not comparable. *)
Theorem mergeRequires_errors (dest src : File) (force : bool) (e : error) :
  snd (mergeRequires dest src force) = Some e ->
  (exists v, e = ErrInvalidSemVer v /\ NewVersion v = None)
  \/ (force = false
      /\ exists d s dv sv,
           e = ErrIrreconcilable d (Mod s)
           /\ In s (Requires src)
           /\ Path d = Path (Mod s)
           /\ Version d <> Version (Mod s)
           /\ NewVersion (Version d) = Some dv
           /\ NewVersion (Version (Mod s)) = Some sv
           /\ canCompare dv sv = false).
Proof.
  rewrite mergeRequires_error. apply requireLoop_errors.
Qed.

Lemma run_error_iff dest src force e :
  run dest src force = inl e <-> snd (mergeRequires dest src force) = Some e.
Proof.
  unfold run. destruct (mergeRequires dest src force) as [d1 [e1|]]; simpl.
  - unfold fail. split; congruence.
  - rewrite mergeReplacements_eq. simpl. unfold ok. split; discriminate.
Qed.

(** X3: the pipeline fails exactly when the requirement pass fails, and with
    the same error; the conflicting-replacement error is never returned. *)
Theorem run_fails_with_mergeRequires (dest src : File) (force : bool) :
  (forall e, run dest src force = inl e <->
             snd (mergeRequires dest src force) = Some e)
  /\ run dest src force <> inl ErrReplaceMismatch.
Proof.
  split; [intros e; apply run_error_iff|].
  intros H. apply run_error_iff in H. rewrite mergeRequires_error in H.
  destruct (requireLoop_errors force _ _ _ H)
    as [(v & E & _)|(_ & d & s & dv & sv & E & _)]; discriminate.
Qed.

(* What the requirement pass does to the destination requires *)

Lemma reconcile_change force srcR d d' :
  reconcile force srcR d = inr d' -> d' <> d ->
  d' = setVersion d (Version (Mod srcR))
  /\ exists dv sv,
       NewVersion (Version (Mod d)) = Some dv
       /\ NewVersion (Version (Mod srcR)) = Some sv
       /\ (force = true
           \/ (canCompare dv sv = true /\ LessThan sv dv = true)).
Proof.
  rewrite reconcile_eq. unfold reconcileVersion, bind, ok, fail.
  destruct (negb (Version (Mod srcR) =? Version (Mod d))%string).
  - destruct (NewVersion (Version (Mod d))) as [dv|]; [|discriminate].
    destruct (NewVersion (Version (Mod srcR))) as [sv|]; [|discriminate].
    destruct force.
    + intros H N. injection H as <-. split; [reflexivity|].
      exists dv, sv. auto.
    + destruct (canCompare dv sv) eqn:Hc; simpl; [|discriminate].
      destruct (LessThan sv dv) eqn:Hl; intros H N; injection H as <-.
      * split; [reflexivity|]. exists dv, sv. auto.
      * now elim N.
  - intros H N. injection H as <-. now elim N.
Qed.

(** X6: the inner loop of mergeRequires changes a destination require only
    by giving it the version of the source require of the same path, and
    only when both versions parse; without forceOverwrite, moreover, only
    when they are comparable and the source version is strictly lower. *)
Theorem scanRequires_only_lowers (force : bool) (srcR : RequireStmt)
    (ds : list RequireStmt) (j : nat) (d d' : RequireStmt) :
  nth_error ds j = Some d ->
  nth_error (fst (scanRequires force srcR ds)) j = Some d' ->
  d' <> d ->
  Path (Mod d) = Path (Mod srcR)
  /\ d' = setVersion d (Version (Mod srcR))
  /\ exists dv sv,
       NewVersion (Version (Mod d)) = Some dv
       /\ NewVersion (Version (Mod srcR)) = Some sv
       /\ (force = true
           \/ (canCompare dv sv = true /\ LessThan sv dv = true)).
Proof.
  revert j. induction ds as [|x ds IH]; intros j Hj Hj' N;
    [destruct j; discriminate|].
  simpl in Hj'.
  destruct (ModString (Mod srcR) =? ModString (Mod x))%string.
  { simpl in Hj'. congruence. }
  destruct (String.eqb_spec (Path (Mod srcR)) (Path (Mod x))) as [EP|NP].
  - destruct (reconcile force srcR x) as [e|x'] eqn:R.
    { simpl in Hj'. congruence. }
    destruct (scanRequires force srcR ds) as [rest o]; simpl in *.
    destruct j as [|j]; simpl in *.
    + injection Hj as <-. injection Hj' as <-.
      destruct (reconcile_change force srcR x x' R N) as [E H].
      repeat split; auto.
    + now apply (IH j).
  - destruct (scanRequires force srcR ds) as [rest o]; simpl in *.
    destruct j as [|j]; simpl in *; [congruence|]. now apply (IH j).
Qed.

Lemma requireLoop_entries force srcs : forall ds j d,
  nth_error ds j = Some d ->
  exists d',
    nth_error (fst (requireLoop force srcs ds)) j = Some d'
    /\ Path (Mod d') = Path (Mod d)
    /\ Indirect d' = Indirect d
    /\ (Version (Mod d') = Version (Mod d)
        \/ exists s, In s srcs /\ Path (Mod s) = Path (Mod d)
                     /\ Version (Mod d') = Version (Mod s)).
Proof.
  induction srcs as [|s srcs IH]; intros ds j d H; simpl.
  - exists d. auto.
  - destruct (Forall2_nth_error _ _ _ j _ (scanRequires_touched force s ds) H)
      as (d1 & H1 & T).
    assert (T1 : Path (Mod d1) = Path (Mod d) /\ Indirect d1 = Indirect d
                 /\ (Version (Mod d1) = Version (Mod d)
                     \/ (Path (Mod s) = Path (Mod d)
                         /\ Version (Mod d1) = Version (Mod s)))).
    { destruct T as [->|[EP ->]]; simpl; auto. }
    destruct T1 as (P1 & I1 & V1).
    assert (K : forall l, nth_error l j = Some d1 ->
                exists d',
                  nth_error (fst (requireLoop force srcs l)) j = Some d'
                  /\ Path (Mod d') = Path (Mod d)
                  /\ Indirect d' = Indirect d
                  /\ (Version (Mod d') = Version (Mod d)
                      \/ exists s0, In s0 (s :: srcs)
                                    /\ Path (Mod s0) = Path (Mod d)
                                    /\ Version (Mod d') = Version (Mod s0))).
    { intros l Hl. destruct (IH l j d1 Hl) as (d' & H' & P' & I' & V').
      exists d'. repeat split; try congruence.
      destruct V' as [V'|(s0 & Hs0 & Ps0 & Vs0)].
      - destruct V1 as [V1|[Ps Vs]].
        + left. congruence.
        + right. exists s. repeat split; [now left|assumption|congruence].
      - right. exists s0. repeat split; [now right|congruence|assumption]. }
    destruct (scanRequires force s ds) as [ds' [| |e]]; simpl in *.
    + now apply K.
    + apply K. unfold AddNewRequire. rewrite nth_error_app1; [assumption|].
      apply nth_error_Some. congruence.
    + exists d1. repeat split; auto.
      destruct V1 as [V1|[Ps Vs]]; [now left|].
      right. exists s. repeat split; [now left|assumption|assumption].
Qed.

Lemma requireLoop_length force srcs : forall ds,
  length ds <= length (fst (requireLoop force srcs ds))
  /\ length (fst (requireLoop force srcs ds)) <= length ds + length srcs.
Proof.
  induction srcs as [|s srcs IH]; intros ds; simpl; [lia|].
  pose proof (scanRequires_length force s ds) as L.
  destruct (scanRequires force s ds) as [ds' [| |e]]; simpl in *.
  - specialize (IH ds'). lia.
  - specialize (IH (AddNewRequire (Path (Mod s)) (Version (Mod s))
                      (Indirect s) ds')).
    assert (LA : length (AddNewRequire (Path (Mod s)) (Version (Mod s))
                           (Indirect s) ds') = S (length ds')).
    { unfold AddNewRequire. rewrite length_app. simpl. lia. }
    rewrite LA in IH. lia.
  - lia.
Qed.

(** X5: mergeRequires never removes or moves a destination require: the
    slice grows by at most one entry per source require, and a destination
    require that is not a require of the source module stays at its index
    with its path and its indirect flag; its version is the one it had or
    that of a source require of the same path.  This holds whether or not
    the merge ends in an error. *)
Theorem mergeRequires_keeps_entries (dest src : File) (force : bool) :
  (length (Requires dest)
   <= length (Requires (fst (mergeRequires dest src force)))
   <= length (Requires dest) + length (Requires src))
  /\ forall j d,
       nth_error (Requires dest) j = Some d ->
       Path (Mod d) <> ModulePath src ->
       exists d',
         nth_error (Requires (fst (mergeRequires dest src force))) j
         = Some d'
         /\ Path (Mod d') = Path (Mod d)
         /\ Indirect d' = Indirect d
         /\ (Version (Mod d') = Version (Mod d)
             \/ exists s, In s (Requires src)
                          /\ Path (Mod s) = Path (Mod d)
                          /\ Version (Mod d') = Version (Mod s)).
Proof.
  rewrite mergeRequires_Requires. split.
  - pose proof (requireLoop_length force (Requires src)
                  (DropRequire (ModulePath src) (Requires dest))) as L.
    assert (LD : length (DropRequire (ModulePath src) (Requires dest))
                 = length (Requires dest)).
    { unfold DropRequire. apply length_map. }
    rewrite LD in L. exact L.
  - intros j d H Hm. apply requireLoop_entries.
    now apply DropRequire_frame.
Qed.

(* Pure addition and pure match *)

Lemma requireLoop_append force srcs : forall ds,
  at_free ds -> at_free srcs ->
  NoDup (map requirePath srcs) ->
  (forall s, In s srcs -> ~ In (requirePath s) (map requirePath ds)) ->
  requireLoop force srcs ds = (ds ++ srcs, None).
Proof.
  induction srcs as [|s srcs IH]; intros ds Fd Fs ND Dis; simpl.
  - now rewrite app_nil_r.
  - inversion Fs as [|? ? Fs0 Fs']; subst.
    inversion ND as [|? ? N0 ND']; subst.
    rewrite (scanRequires_absent force s ds Fd Fs0 (Dis s (or_introl eq_refl))).
    unfold AddNewRequire.
    replace {| Mod := {| Path := Path (Mod s); Version := Version (Mod s) |};
               Indirect := Indirect s |} with s
      by (now destruct s as [[p v] i]).
    rewrite IH; auto.
    + now rewrite <- app_assoc.
    + unfold at_free. apply Forall_app. split; [exact Fd|].
      constructor; [exact Fs0|constructor].
    + intros s' Hs'. rewrite map_app, in_app_iff. simpl.
      intros [H|[H|[]]].
      * apply (Dis s' (or_intror Hs') H).
      * apply N0. rewrite H. now apply in_map.
Qed.

(** X7: when no source require has a path that the destination requires,
    mergeRequires appends the source requires in their order behind the
    destination requires, and returns no error whatever the version
    strings are: no version is parsed.  The source requires have distinct,
    non-empty paths and no path contains '@'. *)
Theorem mergeRequires_pure_addition (dest src : File) (force : bool) :
  at_free (Requires dest) ->
  Forall (fun s => valid_path (requirePath s) = true) (Requires src) ->
  NoDup (map requirePath (Requires src)) ->
  (forall s, In s (Requires src) ->
     ~ In (requirePath s) (map requirePath (Requires dest))) ->
  mergeRequires dest src force
  = (setRequires dest
       (DropRequire (ModulePath src) (Requires dest) ++ Requires src),
     None).
Proof.
  intros Fd Vs ND Dis. unfold mergeRequires.
  rewrite requireLoop_append; auto.
  - now apply DropRequire_at_free.
  - unfold at_free. eapply Forall_impl; [|exact Vs].
    intros s. apply valid_path_at.
  - intros s Hs. apply DropRequire_paths; [|now apply Dis].
    apply valid_path_nonempty. rewrite Forall_forall in Vs. now apply Vs.
Qed.

Lemma scanRequires_exact force srcR a d b :
  Forall (fun x => unrelated srcR x = true) a ->
  Mod d = Mod srcR ->
  settled force srcR (a ++ d :: b).
Proof.
  intros U E. unfold settled.
  rewrite (scanRequires_skip force srcR a (d :: b) U). simpl.
  now rewrite E, String.eqb_refl.
Qed.

(** X8: when every source require is in the destination with the same
    path and version, the destination requires no path twice, and the
    source does not require its own module, mergeRequires returns no error
    and changes nothing but the requires of the source module, which it
    zeroes. *)
Theorem mergeRequires_already_merged (dest src : File) (force : bool) :
  at_free (Requires dest) ->
  NoDup (map requirePath (Requires dest)) ->
  Forall (fun s => valid_path (requirePath s) = true) (Requires src) ->
  ~ In (ModulePath src) (map requirePath (Requires src)) ->
  (forall s, In s (Requires src) ->
     exists d, In d (Requires dest) /\ Mod d = Mod s) ->
  mergeRequires dest src force
  = (setRequires dest (DropRequire (ModulePath src) (Requires dest)), None).
Proof.
  intros Fd ND Vs NS Hin. unfold mergeRequires.
  rewrite requireLoop_all_settled; [reflexivity|].
  intros s Hs. rewrite Forall_forall in Vs. specialize (Vs s Hs).
  destruct (Hin s Hs) as (d & Hd & E).
  destruct (in_split d _ Hd) as (l1 & l2 & Hl).
  assert (Pd : Path (Mod d) <> ModulePath src).
  { rewrite E. intro H. apply NS. rewrite <- H. now apply (in_map requirePath). }
  rewrite Hl. unfold DropRequire. rewrite map_app. simpl.
  destruct (String.eqb_spec (Path (Mod d)) (ModulePath src)) as [H|_];
    [contradiction|].
  apply scanRequires_exact; [|exact E].
  rewrite Hl, map_app in ND. simpl in ND.
  apply NoDup_remove_2 in ND.
  apply Forall_forall. intros x Hx. apply in_map_iff in Hx as (x0 & <- & Hx0).
  assert (Fx0 : contains_at (Path (Mod x0)) = false).
  { unfold at_free in Fd. rewrite Forall_forall in Fd. apply Fd.
    rewrite Hl. apply in_or_app. now left. }
  apply unrelated_other_path.
  - now apply valid_path_at.
  - now destruct (Path (Mod x0) =? ModulePath src)%string.
  - destruct (Path (Mod x0) =? ModulePath src)%string; simpl.
    + intro H. symmetry in H. revert H. now apply valid_path_nonempty.
    + intro H. apply ND. apply in_or_app. left.
      unfold requirePath at 1. rewrite E, <- H. now apply (in_map requirePath).
Qed.

(* Exclusions *)

Lemma scanExcludes_app srcE ds l :
  scanExcludes srcE ds = true -> scanExcludes srcE (ds ++ l) = true.
Proof.
  induction ds as [|d ds IH]; simpl; [discriminate|].
  destruct (ModString (ExMod srcE) =? ModString (ExMod d))%string; auto.
Qed.

Lemma scanExcludes_snoc srcE ds :
  scanExcludes srcE (ds ++ [srcE]) = true.
Proof.
  induction ds as [|d ds IH]; simpl.
  - now rewrite String.eqb_refl.
  - now destruct (ModString (ExMod srcE) =? ModString (ExMod d))%string.
Qed.

Lemma AddExclude_not_found srcE ds :
  scanExcludes srcE ds = false ->
  AddExclude (Path (ExMod srcE)) (Version (ExMod srcE)) ds = ds ++ [srcE].
Proof.
  intros Sc. apply AddExclude_new. intros H.
  apply scanExcludes_In in H. congruence.
Qed.

Lemma excludeLoop_found srcs : forall ds,
  exists added,
    excludeLoop srcs ds = ds ++ added
    /\ incl added srcs
    /\ forall s, In s srcs -> scanExcludes s (ds ++ added) = true.
Proof.
  induction srcs as [|s srcs IH]; intros ds; simpl.
  - exists []. rewrite app_nil_r. split; [reflexivity|].
    split; [apply incl_nil_l|]. intros s [].
  - destruct (scanExcludes s ds) eqn:Sc.
    + destruct (IH ds) as (added & E & I & F). exists added.
      split; [exact E|]. split; [now apply incl_tl|].
      intros s' [<-|Hs']; [now apply scanExcludes_app|now apply F].
    + rewrite (AddExclude_not_found s ds Sc).
      destruct (IH (ds ++ [s])) as (added & E & I & F).
      exists (s :: added). rewrite E, <- app_assoc. simpl.
      split; [reflexivity|].
      split; [apply incl_cons; [now left|now apply incl_tl]|].
      intros s' [<-|Hs'].
      * change (ds ++ s :: added) with (ds ++ [s] ++ added).
        rewrite app_assoc. apply scanExcludes_app, scanExcludes_snoc.
      * specialize (F s' Hs'). now rewrite <- app_assoc in F.
Qed.

(** X9: on every pair of manifests mergeExcludes keeps the destination
    exclusions in place, only appends exclusions of the source, and running
    it again on its result with the same source changes nothing. *)
Theorem mergeExcludes_idempotent (dest src : File) :
  (exists added,
     Excludes (fst (mergeExcludes dest src)) = Excludes dest ++ added
     /\ incl added (Excludes src))
  /\ mergeExcludes (fst (mergeExcludes dest src)) src
     = mergeExcludes dest src.
Proof.
  destruct (excludeLoop_found (Excludes src) (Excludes dest))
    as (added & E & I & F).
  split.
  - exists added. simpl. now split.
  - unfold mergeExcludes. simpl. f_equal. unfold setExcludes. simpl.
    f_equal. apply excludeLoop_all_found. intros s Hs.
    rewrite E. now apply F.
Qed.

(* Replacements *)

Lemma replaceStep_touched srcR ds j d :
  nth_error ds j = Some d ->
  exists d',
    nth_error (replaceStep srcR ds) j = Some d'
    /\ touchedR (Path (Old srcR)) (New srcR) d d'.
Proof.
  intros H. unfold replaceStep.
  destruct (scanReplaces srcR ds); try (exists d; split; [assumption|now left]).
  unfold AddReplace.
  pose proof (addReplaceLoop_touched (Path (Old srcR)) (Version (Old srcR))
                {| Path := Path (New srcR); Version := Version (New srcR) |}
                ds true) as T.
  replace {| Path := Path (New srcR); Version := Version (New srcR) |}
    with (New srcR) in * by (now destruct (New srcR)).
  destruct (addReplaceLoop _ _ _ true ds) as [rs' need]; simpl in T.
  destruct (Forall2_nth_error _ _ _ j _ T H) as (d' & H' & Td).
  exists d'. split; [|exact Td].
  destruct need; [|exact H'].
  rewrite nth_error_app1; [exact H'|]. apply nth_error_Some. congruence.
Qed.

Lemma replaceFold_frame srcs : forall ds j d,
  nth_error ds j = Some d ->
  ~ In (replacePath d) (map replacePath srcs) ->
  nth_error (fold_left (fun l s => replaceStep s l) srcs ds) j = Some d.
Proof.
  induction srcs as [|s srcs IH]; intros ds j d H N; simpl; [assumption|].
  simpl in N. apply IH; [|tauto].
  destruct (replaceStep_touched s ds j d H) as (d' & H' & [->|[E _]]);
    [assumption|].
  elim N. left. unfold replacePath. now rewrite E.
Qed.

(** X10: a destination replace whose old path is neither the source module
    nor the old path of a source replace is, after mergeReplacements, still
    at its index with the same old and new coordinates. *)
Theorem mergeReplacements_frame (dest src : File) (j : nat)
    (d : ReplaceStmt) :
  nth_error (Replaces dest) j = Some d ->
  Path (Old d) <> ModulePath src ->
  (forall s, In s (Replaces src) -> Path (Old s) <> Path (Old d)) ->
  nth_error (Replaces (fst (mergeReplacements dest src))) j = Some d.
Proof.
  intros H Hm Hs. rewrite mergeReplacements_eq. simpl.
  apply replaceFold_frame.
  - rewrite dropSelfReplaces_map, nth_error_map, H. simpl.
    now destruct (String.eqb_spec (Path (Old d)) (ModulePath src)).
  - intros HIn. apply in_map_iff in HIn as (s & E & HIn).
    now apply (Hs s HIn).
Qed.

Lemma replaceFold_entries srcs : forall ds j d,
  nth_error ds j = Some d ->
  exists d',
    nth_error (fold_left (fun l s => replaceStep s l) srcs ds) j = Some d'
    /\ (Old d' = zeroVersion
        \/ (Old d' = Old d
            /\ (New d' = New d
                \/ exists s, In s srcs /\ Path (Old s) = Path (Old d)
                             /\ New d' = New s))).
Proof.
  induction srcs as [|s srcs IH]; intros ds j d H; simpl.
  - exists d. auto.
  - destruct (replaceStep_touched s ds j d H) as (d1 & H1 & T).
    destruct (IH _ j d1 H1) as (d' & H' & R). exists d'.
    split; [exact H'|].
    destruct T as [->|[E [->| ->]]].
    + destruct R as [R|(R1 & [R2|(s0 & Hs0 & P0 & N0)])]; auto.
      right. split; [exact R1|]. right. exists s0. auto.
    + simpl in R.
      destruct R as [R|(R1 & [R2|(s0 & Hs0 & P0 & N0)])]; auto.
      * right. split; [exact R1|]. right. exists s. auto.
      * right. split; [exact R1|]. right. exists s0. auto.
    + simpl in R. left.
      destruct R as [R|(R1 & _)]; assumption.
Qed.

(** X11: mergeReplacements never rewrites the old coordinate of a
    destination replace: each one stays at its index and is either zeroed,
    or keeps its old coordinate with its target unchanged or replaced by
    the target of a source replace of the same old path. *)
Theorem mergeReplacements_keeps_old (dest src : File) (j : nat)
    (d : ReplaceStmt) :
  nth_error (Replaces dest) j = Some d ->
  exists d',
    nth_error (Replaces (fst (mergeReplacements dest src))) j = Some d'
    /\ (Old d' = zeroVersion
        \/ (Old d' = Old d
            /\ (New d' = New d
                \/ exists s, In s (Replaces src)
                             /\ Path (Old s) = Path (Old d)
                             /\ New d' = New s))).
Proof.
  intros H. rewrite mergeReplacements_eq. simpl.
  assert (H0 : nth_error (dropSelfReplaces (ModulePath src) (Replaces dest)) j
               = Some (if (Path (Old d) =? ModulePath src)%string
                       then zeroReplace else d)).
  { now rewrite dropSelfReplaces_map, nth_error_map, H. }
  destruct (replaceFold_entries (Replaces src) _ j _ H0) as (d' & H' & R).
  exists d'. split; [exact H'|].
  destruct (Path (Old d) =? ModulePath src)%string; [|exact R].
  left. simpl in R. destruct R as [R|(R & _)]; assumption.
Qed.

(* Nothing of the source is lost *)

Lemma scanRequires_Found force srcR : forall ds ds1,
  scanRequires force srcR ds = (ds1, Found) ->
  exists d, In d ds1 /\ ModString (Mod srcR) = ModString (Mod d).
Proof.
  induction ds as [|x ds IH]; intros ds1 H; simpl in H; [discriminate|].
  destruct (String.eqb_spec (ModString (Mod srcR)) (ModString (Mod x)))
    as [E|_].
  - injection H as <-. exists x. split; [now left|exact E].
  - destruct (Path (Mod srcR) =? Path (Mod x))%string.
    + destruct (reconcile force srcR x) as [e|x']; [discriminate|].
      destruct (scanRequires force srcR ds) as [rest o] eqn:Sc.
      injection H as <- ->.
      destruct (IH rest eq_refl) as (d & Hd & E). exists d.
      split; [now right|exact E].
    + destruct (scanRequires force srcR ds) as [rest o] eqn:Sc.
      injection H as <- ->.
      destruct (IH rest eq_refl) as (d & Hd & E). exists d.
      split; [now right|exact E].
Qed.

Lemma requireLoop_has_paths force srcs : forall ds,
  at_free ds -> at_free srcs ->
  snd (requireLoop force srcs ds) = None ->
  forall s, In s srcs ->
    In (requirePath s) (map requirePath (fst (requireLoop force srcs ds))).
Proof.
  induction srcs as [|s0 srcs IH]; intros ds Fd Fs Hok s Hin;
    simpl in *; [contradiction|].
  inversion Fs as [|? ? Fs0 Fs']; subst.
  pose proof (scanRequires_paths force s0 ds) as P.
  destruct (scanRequires force s0 ds) as [ds1 o] eqn:Sc; simpl in P.
  assert (Fd1 : at_free ds1).
  { apply (at_free_paths ds ds1); [now symmetry|assumption]. }
  assert (K : forall l, at_free l ->
                In (requirePath s0) (map requirePath l) ->
                snd (requireLoop force srcs l) = None ->
                In (requirePath s)
                   (map requirePath (fst (requireLoop force srcs l)))).
  { intros l Fl Hl Hokl. destruct Hin as [<-|Hin].
    - destruct (requireLoop_paths force srcs l) as (added & E & _).
      rewrite E. apply in_or_app. now left.
    - now apply IH. }
  destruct o as [| |e]; simpl in *; [| |discriminate].
  - apply K; auto.
    destruct (scanRequires_Found force s0 ds ds1 Sc) as (d & Hd & E).
    apply ModString_inj in E; auto.
    + unfold requirePath at 1. rewrite E. now apply (in_map requirePath).
    + unfold at_free in Fd1. rewrite Forall_forall in Fd1. now apply Fd1.
  - apply K; auto.
    + unfold AddNewRequire, at_free. apply Forall_app. split; [exact Fd1|].
      constructor; [exact Fs0|constructor].
    + unfold AddNewRequire. rewrite map_app. apply in_or_app. right.
      now left.
Qed.

Lemma Forall2_In_l {A B : Type} (R : A -> B -> Prop) l l' x :
  Forall2 R l l' -> In x l -> exists y, In y l' /\ R x y.
Proof.
  induction 1 as [|a b l l' Hab F IH]; intros H; [contradiction|].
  destruct H as [<-|H].
  - exists b. split; [now left|assumption].
  - destruct (IH H) as (y & Hy & Ry). exists y. split; [now right|assumption].
Qed.

Lemma addReplaceLoop_other_path o v n p rs need :
  p <> o -> In p (map replacePath rs) ->
  In p (map replacePath (fst (addReplaceLoop o v n need rs))).
Proof.
  intros N H. apply in_map_iff in H as (r & <- & Hr).
  destruct (Forall2_In_l _ _ _ r (addReplaceLoop_touched o v n rs need) Hr)
    as (r' & Hr' & [->|[E _]]).
  - now apply in_map.
  - now elim N.
Qed.

Lemma addReplaceLoop_keeps_path o v n p : forall rs,
  In p (map replacePath rs) ->
  In p (map replacePath (fst (addReplaceLoop o v n true rs))).
Proof.
  induction rs as [|r rs IH]; intros H; simpl in *; [contradiction|].
  destruct (String.eqb_spec (Path (Old r)) o) as [E|N]; simpl.
  - destruct ((v =? "")%string || (Version (Old r) =? v)%string).
    + pose proof (addReplaceLoop_other_path o v n p rs false) as K.
      destruct (addReplaceLoop o v n false rs) as [rest need]; simpl in *.
      destruct H as [H|H]; [now left|].
      destruct (String.eqb_spec p o) as [Ep|Np].
      * left. unfold replacePath. simpl. congruence.
      * right. now apply K.
    + destruct (addReplaceLoop o v n true rs) as [rest need]; simpl in *.
      destruct H as [H|H]; [now left|right; now apply IH].
  - destruct (addReplaceLoop o v n true rs) as [rest need]; simpl in *.
    destruct H as [H|H]; [now left|right; now apply IH].
Qed.

Lemma addReplaceLoop_matched o v n : forall rs rs',
  addReplaceLoop o v n true rs = (rs', false) ->
  In o (map replacePath rs').
Proof.
  induction rs as [|r rs IH]; intros rs' H; simpl in H; [discriminate|].
  destruct (String.eqb_spec (Path (Old r)) o) as [E|N]; simpl in H.
  - destruct ((v =? "")%string || (Version (Old r) =? v)%string).
    + destruct (addReplaceLoop o v n false rs) as [rest need].
      injection H as <- _. left. exact E.
    + destruct (addReplaceLoop o v n true rs) as [rest need] eqn:L.
      injection H as <- ->. right. now apply (IH rest).
  - destruct (addReplaceLoop o v n true rs) as [rest need] eqn:L.
    injection H as <- ->. right. now apply (IH rest).
Qed.

Lemma replaceStep_keeps_path srcR ds p :
  In p (map replacePath ds) ->
  In p (map replacePath (replaceStep srcR ds)).
Proof.
  intros H. unfold replaceStep.
  destruct (scanReplaces srcR ds); try assumption.
  unfold AddReplace.
  pose proof (addReplaceLoop_keeps_path (Path (Old srcR))
                (Version (Old srcR))
                {| Path := Path (New srcR); Version := Version (New srcR) |}
                p ds H) as K.
  destruct (addReplaceLoop _ _ _ true ds) as [rs' need]; simpl in K.
  destruct need; [|exact K].
  rewrite map_app. apply in_or_app. now left.
Qed.

Lemma scanReplaces_Found srcR : forall ds,
  scanReplaces srcR ds = Found ->
  exists d, In d ds /\ ModString (Old srcR) = ModString (Old d).
Proof.
  induction ds as [|x ds IH]; simpl; [discriminate|].
  destruct (String.eqb_spec (ModString (Old srcR)) (ModString (Old x)))
    as [E|_].
  - intros _. exists x. split; [now left|exact E].
  - destruct (_ && _ && _); [discriminate|].
    intros H. destruct (IH H) as (d & Hd & E). exists d.
    split; [now right|exact E].
Qed.

Lemma replaceStep_has_path srcR ds :
  at_freeR ds -> contains_at (Path (Old srcR)) = false ->
  In (replacePath srcR) (map replacePath (replaceStep srcR ds)).
Proof.
  intros Fd Fs. unfold replaceStep.
  destruct (scanReplaces srcR ds) eqn:Sc.
  - destruct (scanReplaces_Found srcR ds Sc) as (d & Hd & E).
    apply ModString_inj in E; auto.
    + unfold replacePath at 1. rewrite E. now apply (in_map replacePath).
    + unfold at_freeR in Fd. rewrite Forall_forall in Fd. now apply Fd.
  - unfold AddReplace.
    pose proof (addReplaceLoop_matched (Path (Old srcR)) (Version (Old srcR))
                  {| Path := Path (New srcR); Version := Version (New srcR) |}
                  ds) as K.
    destruct (addReplaceLoop _ _ _ true ds) as [rs' need].
    destruct need.
    + rewrite map_app. apply in_or_app. right. now left.
    + now apply (K rs').
  - now elim (scanReplaces_no_abort srcR ds e).
Qed.

Lemma replaceFold_keeps_path srcs p : forall l,
  In p (map replacePath l) ->
  In p (map replacePath (fold_left (fun l s => replaceStep s l) srcs l)).
Proof.
  induction srcs as [|s srcs IH]; intros l H; simpl; [exact H|].
  apply IH. now apply replaceStep_keeps_path.
Qed.

Lemma replaceFold_has_paths srcs : forall ds,
  at_freeR ds -> at_freeR srcs ->
  forall s, In s srcs ->
    In (replacePath s)
       (map replacePath (fold_left (fun l s => replaceStep s l) srcs ds)).
Proof.
  induction srcs as [|s0 srcs IH]; intros ds Fd Fs s Hin;
    simpl in *; [contradiction|].
  inversion Fs as [|? ? Fs0 Fs']; subst.
  assert (Fd1 : at_freeR (replaceStep s0 ds)).
  { apply (replaceStep_Forall (fun p => contains_at p = false)); auto. }
  destruct Hin as [<-|Hin]; [|now apply IH].
  apply replaceFold_keeps_path. now apply replaceStep_has_path.
Qed.

Lemma in_map_filter {A : Type} (f : A -> string) (l : list A) (p : string) :
  p <> "" -> In p (map f l) ->
  In p (map f (filter (fun x => negb (f x =? "")%string) l)).
Proof.
  intros Np H. apply in_map_iff in H as (x & <- & Hx).
  apply in_map. apply filter_In. split; [exact Hx|].
  now apply negb_true_iff, String.eqb_neq.
Qed.

(** X14: nothing of the source is lost: after a successful run on
    well-formed manifests every path required by the source is required by
    the result, every old path replaced by the source is replaced by the
    result, and every exclusion of the source is an exclusion of the
    result. *)
Theorem run_keeps_source (dest src : File) (force : bool) (out : File) :
  well_formed dest -> well_formed src ->
  run dest src force = inr out ->
  (forall s, In s (Requires src) ->
     In (requirePath s) (map requirePath (Requires out)))
  /\ (forall s, In s (Replaces src) ->
        In (replacePath s) (map replacePath (Replaces out)))
  /\ (forall x, In x (Excludes src) -> In x (Excludes out)).
Proof.
  intros Wd Ws Hrun.
  destruct (run_inr dest src force out Hrun) as (Hok & _ & HR & HP & HX).
  rewrite mergeRequires_error in Hok. rewrite mergeRequires_Requires in HR.
  pose proof (well_formed_requires src Ws) as VR.
  pose proof (well_formed_replaces src Ws) as VP.
  pose proof (well_formed_excludes src Ws) as VX.
  rewrite Forall_forall in VR, VP, VX.
  split; [|split].
  - intros s Hs. rewrite HR.
    apply (in_map_filter requirePath);
      [apply valid_path_nonempty; now apply VR|].
    apply requireLoop_has_paths; auto.
    + now apply DropRequire_at_free, well_formed_at_free.
    + now apply well_formed_at_free.
  - intros s Hs. rewrite HP.
    apply (in_map_filter replacePath);
      [apply valid_path_nonempty; now apply VP|].
    apply replaceFold_has_paths; auto.
    + now apply dropSelfReplaces_at_freeR, well_formed_at_freeR.
    + now apply well_formed_at_freeR.
  - intros x Hx. rewrite HX. apply filter_In. split.
    + apply excludeLoop_contains; auto; now apply well_formed_at_freeE.
    + specialize (VX x Hx).
      apply valid_path_nonempty, String.eqb_neq in VX.
      unfold excludePath in VX. now rewrite VX.
Qed.

(* When the requirement pass succeeds *)

Lemma reconcile_succeeds force srcR d :
  parses_plain force (Version (Mod srcR)) ->
  parses_plain force (Version (Mod d)) ->
  exists d', reconcile force srcR d = inr d'
             /\ parses_plain force (Version (Mod d'))
             /\ Path (Mod d') = Path (Mod d).
Proof.
  intros (sv & Hs & Ps) (dv & Hd & Pd).
  rewrite reconcile_eq. unfold reconcileVersion, bind, ok, fail.
  destruct (negb (Version (Mod srcR) =? Version (Mod d))%string).
  - rewrite Hd, Hs. destruct force.
    + eexists. split; [reflexivity|]. split; [|reflexivity].
      exists sv. auto.
    + destruct Ps as [Ps|Ps]; [discriminate|].
      destruct Pd as [Pd|Pd]; [discriminate|].
      assert (Hc : canCompare dv sv = true).
      { unfold canCompare. now rewrite Pd, Ps. }
      rewrite Hc. simpl. destruct (LessThan sv dv).
      * eexists. split; [reflexivity|]. split; [|reflexivity].
        exists sv. auto.
      * exists d. split; [reflexivity|]. split; [|reflexivity].
        exists dv. auto.
  - exists d. split; [reflexivity|]. split; [|reflexivity].
    exists dv. auto.
Qed.

Lemma scanRequires_succeeds force srcR ds :
  Path (Mod srcR) <> "" ->
  parses_plain force (Version (Mod srcR)) ->
  Forall (fun d => Path (Mod d) = ""
                   \/ parses_plain force (Version (Mod d))) ds ->
  (forall e, snd (scanRequires force srcR ds) <> Abort e)
  /\ Forall (fun d => Path (Mod d) = ""
                      \/ parses_plain force (Version (Mod d)))
            (fst (scanRequires force srcR ds)).
Proof.
  intros Np Ps F. induction F as [|d ds Hd F IH]; simpl.
  - split; [discriminate|constructor].
  - destruct (ModString (Mod srcR) =? ModString (Mod d))%string; simpl.
    { split; [discriminate|]. now constructor. }
    destruct (String.eqb_spec (Path (Mod srcR)) (Path (Mod d))) as [EP|NP].
    + destruct Hd as [Hd|Hd]; [congruence|].
      destruct (reconcile_succeeds force srcR d Ps Hd) as (d' & R & Pd' & _).
      rewrite R. destruct IH as [IH1 IH2].
      destruct (scanRequires force srcR ds) as [rest o]; simpl in *.
      split; [exact IH1|]. constructor; [now right|exact IH2].
    + destruct IH as [IH1 IH2].
      destruct (scanRequires force srcR ds) as [rest o]; simpl in *.
      split; [exact IH1|]. now constructor.
Qed.

Lemma requireLoop_succeeds force srcs : forall ds,
  Forall (fun s => Path (Mod s) <> ""
                   /\ parses_plain force (Version (Mod s))) srcs ->
  Forall (fun d => Path (Mod d) = ""
                   \/ parses_plain force (Version (Mod d))) ds ->
  snd (requireLoop force srcs ds) = None.
Proof.
  induction srcs as [|s srcs IH]; intros ds Fs Fd; simpl; [reflexivity|].
  inversion Fs as [|? ? [Np Ps] Fs']; subst.
  destruct (scanRequires_succeeds force s ds Np Ps Fd) as [NA F1].
  destruct (scanRequires force s ds) as [ds1 [| |e]]; simpl in *.
  - now apply IH.
  - apply IH; [exact Fs'|]. unfold AddNewRequire. apply Forall_app.
    split; [exact F1|]. constructor; [now right|constructor].
  - now elim (NA e).
Qed.

(** X18: mergeRequires returns no error when every source require has a
    non-empty path and every version required by the destination or the
    source parses and, unless forceOverwrite is set, has no pre-release
    tag. *)
Theorem mergeRequires_succeeds (dest src : File) (force : bool) :
  Forall (fun s => Path (Mod s) <> "") (Requires src) ->
  Forall (fun r => parses_plain force (Version (Mod r)))
         (Requires dest ++ Requires src) ->
  snd (mergeRequires dest src force) = None.
Proof.
  intros Np Pv. apply Forall_app in Pv as [Pd Ps].
  rewrite mergeRequires_error. apply requireLoop_succeeds.
  - rewrite Forall_forall in *. intros s Hs. split; [now apply Np|now apply Ps].
  - unfold DropRequire. apply Forall_map.
    eapply Forall_impl; [|exact Pd]. intros r Hr. simpl.
    destruct (Path (Mod r) =? ModulePath src)%string; [now left|now right].
Qed.

(* No duplicates *)

Lemma NoDup_append {A : Type} (l l' : list A) :
  NoDup l -> NoDup l' -> (forall x, In x l' -> ~ In x l) -> NoDup (l ++ l').
Proof.
  intros Hl Hl' Dis. induction Hl as [|a l Na Hl IH]; simpl; [exact Hl'|].
  constructor.
  - rewrite in_app_iff. intros [H|H]; [contradiction|].
    apply (Dis a H). now left.
  - apply IH. intros x Hx Hin. apply (Dis x Hx). now right.
Qed.

(** X19: when no exclusion path contains '@' and the destination has no
    exclusion twice, the result of mergeExcludes has no exclusion twice. *)
Theorem mergeExcludes_no_duplicates (dest src : File) :
  at_freeE (Excludes dest) -> at_freeE (Excludes src) ->
  NoDup (Excludes dest) ->
  NoDup (Excludes (fst (mergeExcludes dest src))).
Proof.
  intros Fd Fs ND. simpl.
  destruct (excludeLoop_union (Excludes src) (Excludes dest) Fd Fs)
    as (added & -> & NDa & I).
  apply NoDup_append; auto.
  intros x Hx. now apply I in Hx.
Qed.

Lemma requireLoop_no_mismatch force srcs : forall ds,
  at_free ds -> at_free srcs ->
  NoDup (map requirePath ds) -> NoDup (map requirePath srcs) ->
  (forall s d, In s srcs -> In d ds ->
     Path (Mod d) = Path (Mod s) -> Mod d = Mod s) ->
  snd (requireLoop force srcs ds) = None
  /\ NoDup (map requirePath (fst (requireLoop force srcs ds)))
  /\ exists added,
       fst (requireLoop force srcs ds) = ds ++ added /\ incl added srcs.
Proof.
  induction srcs as [|s srcs IH]; intros ds Fd Fs NDd NDs M; simpl.
  - split; [reflexivity|]. split; [exact NDd|].
    exists []. rewrite app_nil_r. split; [reflexivity|apply incl_nil_l].
  - inversion Fs as [|? ? Fs0 Fs']; subst.
    inversion NDs as [|? ? N0 NDs']; subst.
    destruct (in_dec string_dec (requirePath s) (map requirePath ds))
      as [Hin|Hout].
    + apply in_map_iff in Hin as (d & Pd & Hd).
      assert (E : Mod d = Mod s) by (apply M; auto; now left).
      destruct (in_split d ds Hd) as (a & b & Hl).
      assert (St : scanRequires force s ds = (ds, Found)).
      { rewrite Hl. apply scanRequires_exact; [|exact E].
        rewrite Hl, map_app in NDd. simpl in NDd.
        apply NoDup_remove_2 in NDd.
        apply Forall_forall. intros x Hx. apply unrelated_other_path.
        - exact Fs0.
        - unfold at_free in Fd. rewrite Forall_forall in Fd. apply Fd.
          rewrite Hl. apply in_or_app. now left.
        - intro H. apply NDd. apply in_or_app. left.
          unfold requirePath in Pd. unfold requirePath at 1.
          rewrite Pd, <- H. now apply (in_map requirePath). }
      rewrite St.
      destruct (IH ds Fd Fs' NDd NDs') as (H1 & H2 & added & H3 & H4).
      { intros s' d' Hs' Hd'. apply M; auto. now right. }
      split; [exact H1|]. split; [exact H2|].
      exists added. split; [exact H3|now apply incl_tl].
    + rewrite (scanRequires_absent force s ds Fd Fs0 Hout).
      unfold AddNewRequire.
      replace {| Mod := {| Path := Path (Mod s);
                           Version := Version (Mod s) |};
                 Indirect := Indirect s |} with s
        by (now destruct s as [[p v] i]).
      destruct (IH (ds ++ [s])) as (H1 & H2 & added & H3 & H4); auto.
      * unfold at_free. apply Forall_app. split; [exact Fd|].
        constructor; [exact Fs0|constructor].
      * rewrite map_app. simpl. apply NoDup_append; auto.
        -- constructor; [intros []|constructor].
        -- intros x [<-|[]]. exact Hout.
      * intros s' d' Hs' Hd' HP. apply in_app_or in Hd' as [Hd'|[<-|[]]].
        -- apply M; auto. now right.
        -- elim N0. unfold requirePath in *. rewrite HP.
           now apply (in_map (fun r => Path (Mod r))).
      * split; [exact H1|]. split; [exact H2|].
        exists (s :: added). rewrite H3, <- app_assoc. simpl.
        split; [reflexivity|].
        apply incl_cons; [now left|now apply incl_tl].
Qed.

Lemma DropRequire_NoDup path ds :
  NoDup (map requirePath ds) ->
  ~ In "" (map requirePath ds) ->
  NoDup (map requirePath (DropRequire path ds)).
Proof.
  induction ds as [|d ds IH]; intros ND N0; simpl in *; [constructor|].
  inversion ND as [|? ? Nd ND']; subst.
  assert (N0' : ~ In "" (map requirePath ds)) by tauto.
  constructor; [|now apply IH].
  intros H. unfold DropRequire in H. rewrite map_map in H.
  apply in_map_iff in H as (x & E & Hx).
  assert (Px : In (requirePath x) (map requirePath ds)) by now apply in_map.
  unfold requirePath in *.
  destruct (String.eqb_spec (Path (Mod d)) path) as [Ed|Nd'];
    destruct (String.eqb_spec (Path (Mod x)) path) as [Ex|Nx]; simpl in E.
  - apply Nd. now rewrite Ed, <- Ex.
  - apply N0'. now rewrite <- E.
  - apply N0. left. now symmetry.
  - apply Nd. now rewrite <- E.
Qed.

(** X20: when destination and source each require no path twice and every
    path they both require has the same version on both sides, mergeRequires
    parses no version, returns no error, and its result requires no path
    twice: it is the destination, with the requires of the source module
    zeroed, followed by source requires.  Paths are non-empty and free of
    '@'. *)
Theorem mergeRequires_no_duplicates (dest src : File) (force : bool) :
  Forall (fun r => valid_path (requirePath r) = true) (Requires dest) ->
  Forall (fun r => valid_path (requirePath r) = true) (Requires src) ->
  NoDup (map requirePath (Requires dest)) ->
  NoDup (map requirePath (Requires src)) ->
  (forall s d, In s (Requires src) -> In d (Requires dest) ->
     Path (Mod d) = Path (Mod s) -> Version (Mod d) = Version (Mod s)) ->
  snd (mergeRequires dest src force) = None
  /\ NoDup (map requirePath (Requires (fst (mergeRequires dest src force))))
  /\ exists added,
       Requires (fst (mergeRequires dest src force))
       = DropRequire (ModulePath src) (Requires dest) ++ added
       /\ incl added (Requires src).
Proof.
  intros Vd Vs NDd NDs M.
  rewrite mergeRequires_error, mergeRequires_Requires.
  assert (Fd : at_free (Requires dest)).
  { unfold at_free. eapply Forall_impl; [|exact Vd].
    intros r. apply valid_path_at. }
  assert (Fs : at_free (Requires src)).
  { unfold at_free. eapply Forall_impl; [|exact Vs].
    intros r. apply valid_path_at. }
  apply requireLoop_no_mismatch; auto.
  - now apply DropRequire_at_free.
  - apply DropRequire_NoDup; [exact NDd|].
    intros H. apply in_map_iff in H as (r & E & Hr).
    rewrite Forall_forall in Vd. specialize (Vd r Hr).
    apply valid_path_nonempty in Vd. contradiction.
  - intros s d Hs Hd HP. unfold DropRequire in Hd.
    apply in_map_iff in Hd as (d0 & E & Hd0).
    destruct (Path (Mod d0) =? ModulePath src)%string; subst d.
    + simpl in HP. rewrite Forall_forall in Vs. specialize (Vs s Hs).
      apply valid_path_nonempty in Vs. unfold requirePath in Vs.
      congruence.
    + specialize (M s d0 Hs Hd0 HP).
      destruct (Mod d0), (Mod s); simpl in *. congruence.
Qed.

End Further.

(* ------------------------------------------------------------------ *)
(** ** The merge on concrete manifests *)

(** C1: the destination marks the package indirect and the source requires
    it directly, yet the merged manifest still marks it indirect: with the
    same version on both sides the loop leaves at the match, and with
    different versions the condition of lines 125-128 only holds when the
    two flags are already equal. *)
Theorem directness_not_promoted :
  run destIndirect srcDirect false = inr destIndirect
  /\ run destIndirect srcDirectOlder false
     = inr (mkFile "example.com/a"
              [require pkg "v0.9.0" true; require pkg "v0.9.0" false] [] []).
Proof. split; reflexivity. Qed.

(** C2: the destination requires v1.2.0 and the source v1.1.0 of the same
    path; the loop lowers the destination require and, [found] being still
    false, AddNewRequire appends a second require of that path. *)
Theorem update_appends_duplicate :
  run destNewer srcOlder false
  = inr (mkFile "example.com/a"
           [require pkg "v1.1.0" false; require pkg "v1.1.0" false] [] [])
  /\ ~ NoDup (map requirePath
                [require pkg "v1.1.0" false; require pkg "v1.1.0" false]).
Proof.
  split; [reflexivity|].
  intros H. inversion H as [|? ? N _]; subst. apply N. now left.
Qed.

(** C3: destination and source replace the same old coordinate by
    different targets; mergeReplacements reports no error and keeps the
    destination's target. *)
Theorem conflicting_replace_accepted :
  mergeReplacements destFork srcFork = (destFork, None)
  /\ run destFork srcFork false = inr destFork.
Proof. split; reflexivity. Qed.

(** A release against a pseudo-version: an error without forceOverwrite,
    the pseudo-version with it. *)
Example force_overwrite_example :
  run destNewer srcPseudo false
  = inl (ErrIrreconcilable
           (mkModVersion pkg "v1.2.0")
           (mkModVersion pkg "v0.0.0-20190101000000-abcdef000000"))
  /\ exists out,
       run destNewer srcPseudo true = inr out
       /\ nth_error (Requires out) 0
          = Some (require pkg "v0.0.0-20190101000000-abcdef000000" false).
Proof. split; [reflexivity|]. eexists. split; reflexivity. Qed.



(** A source that requires its own module: nothing is dropped from the
    empty destination and the require is then added. *)
Lemma self_require_survives :
  ~ (forall out, run destEmpty srcSelf false = inr out ->
       forall r, In r (Requires out) -> Path (Mod r) <> ModulePath srcSelf).
Proof.
  intros H.
  apply (H (mkFile "example.com/a"
              [require "example.com/b" "v1.0.0" false] [] [])
           eq_refl (require "example.com/b" "v1.0.0" false)).
  - now left.
  - reflexivity.
Qed.




(** On [destMix] and [srcMix] the destination requires and replaces the
    source module, the merged manifest does neither. *)
Lemma run_no_self_reference_witness :
  (no_self_reference srcMix /\ run destMix srcMix false = inr outMix)
  /\ (forall r, In r (Requires outMix) -> Path (Mod r) <> "example.com/b")
  /\ (forall r, In r (Replaces outMix) -> Path (Old r) <> "example.com/b").
Proof.
  assert (N : no_self_reference srcMix).
  { split; simpl; intros H; repeat destruct H as [H|H]; try discriminate;
      exact H. }
  split; [split; [exact N|reflexivity]|].
  exact (proj1 run_no_self_reference destMix srcMix false outMix N eq_refl).
Defined.

(** The exclusions of [destMix] and [srcMix]. *)
Lemma mergeExcludes_union_witness :
  (at_freeE (Excludes destMix) /\ at_freeE (Excludes srcMix))
  /\ snd (mergeExcludes destMix srcMix) = None
  /\ exists added,
       Excludes (fst (mergeExcludes destMix srcMix))
       = Excludes destMix ++ added
       /\ NoDup added
       /\ (forall e, In e added <->
                     In e (Excludes srcMix) /\ ~ In e (Excludes destMix)).
Proof.
  assert (Fd : at_freeE (Excludes destMix)) by (repeat constructor).
  assert (Fs : at_freeE (Excludes srcMix)) by (repeat constructor).
  split; [split; assumption|].
  destruct (mergeExcludes_union destMix srcMix Fd Fs) as (H1 & _ & _ & _ & H2).
  split; assumption.
Defined.


(** The require of example.com/x in [destMix] is not touched by [srcMix]. *)
Lemma mergeRequires_frame_witness :
  nth_error (Requires destMix) 0
  = Some (require "example.com/x" "v1.0.0" false)
  /\ nth_error (Requires (fst (mergeRequires destMix srcMix false))) 0
     = Some (require "example.com/x" "v1.0.0" false).
Proof.
  split; [reflexivity|].
  apply (mergeRequires_frame destMix srcMix false 0
           (require "example.com/x" "v1.0.0" false)).
  - reflexivity.
  - discriminate.
  - intros s [<-|[<-|[<-|[]]]]; discriminate.
Defined.

(* ------------------------------------------------------------------ *)
(** ** The further properties on concrete manifests *)

(** Three releases. *)
Lemma canCompare_equivalence_witness :
  canCompare (SimpleSemver.mk 1 0 0 "" "") (SimpleSemver.mk 2 0 0 "" "")
  = true.
Proof.
  apply (proj2 (proj2 (canCompare_equivalence (SV := simpleSemver)))
           (SimpleSemver.mk 1 0 0 "" "") (SimpleSemver.mk 1 2 0 "" "")
           (SimpleSemver.mk 2 0 0 "" ""));
    reflexivity.
Defined.

(** The error of merging [srcMixPseudo] into [destMix]. *)
Lemma mergeRequires_errors_witness :
  snd (mergeRequires destMix srcMixPseudo false)
  = Some (ErrIrreconcilable
            (mkModVersion pkg "v1.2.0")
            (mkModVersion pkg "v0.0.0-20190101000000-abcdef000000"))
  /\ ((exists v,
         ErrIrreconcilable
           (mkModVersion pkg "v1.2.0")
           (mkModVersion pkg "v0.0.0-20190101000000-abcdef000000")
         = ErrInvalidSemVer v /\ NewVersion v = None)
      \/ (false = false
          /\ exists d s dv sv,
               ErrIrreconcilable
                 (mkModVersion pkg "v1.2.0")
                 (mkModVersion pkg "v0.0.0-20190101000000-abcdef000000")
               = ErrIrreconcilable d (Mod s)
               /\ In s (Requires srcMixPseudo)
               /\ Path d = Path (Mod s)
               /\ Version d <> Version (Mod s)
               /\ NewVersion (Version d) = Some dv
               /\ NewVersion (Version (Mod s)) = Some sv
               /\ canCompare dv sv = false)).
Proof.
  split; [reflexivity|].
  apply (mergeRequires_errors destMix srcMixPseudo false). reflexivity.
Defined.

(** The require of the package in [destMix] after merging [srcMix]. *)
Lemma mergeRequires_keeps_entries_witness :
  nth_error (Requires destMix) 1 = Some (require pkg "v1.2.0" true)
  /\ exists d',
       nth_error (Requires (fst (mergeRequires destMix srcMix false))) 1
       = Some d'
       /\ Path (Mod d') = pkg
       /\ Indirect d' = true
       /\ (Version (Mod d') = "v1.2.0"
           \/ exists s, In s (Requires srcMix)
                        /\ Path (Mod s) = pkg
                        /\ Version (Mod d') = Version (Mod s)).
Proof.
  split; [reflexivity|].
  apply (proj2 (mergeRequires_keeps_entries destMix srcMix false) 1
           (require pkg "v1.2.0" true)).
  - reflexivity.
  - discriminate.
Defined.

(** The inner loop for the package of [srcMix] over [destMix]. *)
Lemma scanRequires_only_lowers_witness :
  nth_error (fst (scanRequires false (require pkg "v1.1.0" false)
                    (Requires destMix))) 1
  = Some (require pkg "v1.1.0" true)
  /\ exists dv sv,
       NewVersion "v1.2.0" = Some dv
       /\ NewVersion "v1.1.0" = Some sv
       /\ (false = true
           \/ (canCompare dv sv = true /\ LessThan sv dv = true)).
Proof.
  split; [reflexivity|].
  apply (scanRequires_only_lowers false (require pkg "v1.1.0" false)
           (Requires destMix) 1 (require pkg "v1.2.0" true)
           (require pkg "v1.1.0" true)).
  - reflexivity.
  - reflexivity.
  - discriminate.
Defined.

(** [srcNew] requires two paths that [destMix] does not have, one of them
    at a version that is no version. *)
Lemma mergeRequires_pure_addition_witness :
  NewVersion "not-a-version" = None
  /\ mergeRequires destMix srcNew true
     = (setRequires destMix
          (DropRequire "example.com/b" (Requires destMix)
           ++ Requires srcNew), None).
Proof.
  split; [reflexivity|].
  apply (mergeRequires_pure_addition destMix srcNew true).
  - repeat constructor.
  - repeat constructor.
  - simpl. repeat constructor; simpl; intros H;
      repeat destruct H as [H|H]; try discriminate; exact H.
  - intros s [<-|[<-|[]]]; simpl; intros H;
      repeat destruct H as [H|H]; try discriminate; exact H.
Defined.

(** [srcAgree] requires what [destMix] already requires. *)
Lemma mergeRequires_already_merged_witness :
  mergeRequires destMix srcAgree false
  = (setRequires destMix
       (DropRequire "example.com/b" (Requires destMix)), None).
Proof.
  apply (mergeRequires_already_merged destMix srcAgree false).
  - repeat constructor.
  - simpl. repeat constructor; simpl; intros H;
      repeat destruct H as [H|H]; try discriminate; exact H.
  - repeat constructor.
  - simpl. intros H. repeat destruct H as [H|H]; try discriminate; exact H.
  - intros s [<-|[<-|[]]].
    + exists (require pkg "v1.2.0" true). split; [right; now left|reflexivity].
    + exists (require "example.com/x" "v1.0.0" false).
      split; [now left|reflexivity].
Defined.

(** The replace of example.com/k in [destLocal] is not touched by
    [srcMix]. *)
Lemma mergeReplacements_frame_witness :
  nth_error (Replaces (fst (mergeReplacements destLocal srcMix))) 0
  = Some (replace "example.com/k" "" "../k" "").
Proof.
  apply (mergeReplacements_frame destLocal srcMix 0
           (replace "example.com/k" "" "../k" "")).
  - reflexivity.
  - discriminate.
  - intros s [<-|[<-|[]]]; discriminate.
Defined.

(** The replace of example.com/x in [destMix] after merging [srcMix]. *)
Lemma mergeReplacements_keeps_old_witness :
  exists d',
    nth_error (Replaces (fst (mergeReplacements destMix srcMix))) 1 = Some d'
    /\ (Old d' = zeroVersion
        \/ (Old d' = mkModVersion "example.com/x" "v1.0.0"
            /\ (New d' = mkModVersion "example.com/fork/x" "v1.0.1"
                \/ exists s, In s (Replaces srcMix)
                             /\ Path (Old s) = "example.com/x"
                             /\ New d' = New s))).
Proof.
  apply (mergeReplacements_keeps_old destMix srcMix 1
           (replace "example.com/x" "v1.0.0" "example.com/fork/x" "v1.0.1")).
  reflexivity.
Defined.

(** Every path, old path and exclusion of [srcMix] is in [outMix]. *)
Lemma run_keeps_source_witness :
  (well_formed destMix /\ well_formed srcMix
   /\ run destMix srcMix false = inr outMix)
  /\ (forall s, In s (Requires srcMix) ->
        In (requirePath s) (map requirePath (Requires outMix)))
  /\ (forall s, In s (Replaces srcMix) ->
        In (replacePath s) (map replacePath (Replaces outMix)))
  /\ (forall x, In x (Excludes srcMix) -> In x (Excludes outMix)).
Proof.
  assert (Wd : well_formed destMix) by (repeat constructor).
  assert (Ws : well_formed srcMix) by (repeat constructor).
  assert (R : run destMix srcMix false = inr outMix) by reflexivity.
  split; [repeat split; assumption|].
  exact (run_keeps_source destMix srcMix false outMix Wd Ws R).
Defined.

(** All versions of [destMix] and [srcMix] are releases. *)
Lemma mergeRequires_succeeds_witness :
  snd (mergeRequires destMix srcMix false) = None.
Proof.
  apply (mergeRequires_succeeds destMix srcMix false).
  - repeat constructor; discriminate.
  - repeat constructor;
      (eexists; split; [reflexivity|right; reflexivity]).
Defined.

(** The exclusions of [destMix] and [srcMix], the latter with one of them
    twice. *)
Lemma mergeExcludes_no_duplicates_witness :
  ~ NoDup (Excludes srcMix)
  /\ NoDup (Excludes (fst (mergeExcludes destMix srcMix))).
Proof.
  split.
  - intros H. inversion H as [|? ? _ H1]; subst.
    inversion H1 as [|? ? _ H2]; subst.
    inversion H2 as [|? ? N _]; subst. apply N. now left.
  - apply (mergeExcludes_no_duplicates destMix srcMix).
    + repeat constructor.
    + repeat constructor.
    + simpl. repeat constructor; simpl; intros H;
        repeat destruct H as [H|H]; try discriminate; exact H.
Defined.

(** [srcPartly] agrees with [destMix] on the paths they share. *)
Lemma mergeRequires_no_duplicates_witness :
  snd (mergeRequires destMix srcPartly false) = None
  /\ NoDup (map requirePath
              (Requires (fst (mergeRequires destMix srcPartly false)))).
Proof.
  destruct (mergeRequires_no_duplicates destMix srcPartly false)
    as (H1 & H2 & _).
  - repeat constructor.
  - repeat constructor.
  - simpl. repeat constructor; simpl; intros H;
      repeat destruct H as [H|H]; try discriminate; exact H.
  - simpl. repeat constructor; simpl; intros H;
      repeat destruct H as [H|H]; try discriminate; exact H.
  - intros s d Hs Hd HP. simpl in Hs, Hd.
    repeat destruct Hs as [Hs|Hs]; try contradiction; subst s;
      repeat destruct Hd as [Hd|Hd]; try contradiction; subst d;
      try reflexivity; discriminate.
  - split; assumption.
Defined.
